(** * gogram: dispatcher, inbound router and peer cache

    A shallow embedding of [network.go] (package gogram) and
    [telegram/cache.go] (package telegram), with the properties of the
    specification proved over it.

    Conventions.  Go's [int32]/[int64] values are integers in [Z] with the
    wrap-around written out where the code can overflow; [int] is 64 bits
    wide, so [int(x)] on an [int64] is the identity.  Go maps are [gmap]s.
    Go's [error] values are the rendered message strings.  Locks are not
    modelled: every function runs to completion as one step. *)

From Stdlib Require Import ZArith Ascii String List Lia.
From stdpp Require Import base decidable option numbers list strings pretty gmap fin_maps sorting.

Local Open Scope string_scope.
Local Open Scope Z_scope.

(** ** Go values shared by both packages *)

Definition error := string.

Inductive result (A : Type) : Type :=
| Ok (a : A)
| Err (e : error).
Arguments Ok {A} a.
Arguments Err {A} e.

Definition MinInt64 : Z := - 2 ^ 63.
Definition MaxInt64 : Z := 2 ^ 63 - 1.
Definition is_int64 (z : Z) : Prop := MinInt64 <= z <= MaxInt64.
Definition in_int64 (z : Z) : bool := (MinInt64 <=? z) && (z <=? MaxInt64).

Definition is_int32 (z : Z) : Prop := - 2 ^ 31 <= z <= 2 ^ 31 - 1.

(** [x += d] on an [int32]: two's complement wrap-around. *)
Definition wrap32 (z : Z) : Z := (z + 2 ^ 31) mod 2 ^ 32 - 2 ^ 31.

(** ** Package strconv and strings (Go standard library), as [cache.go] uses them *)

Module strconv.

(** [strconv.Itoa]: canonical decimal text, ["-"] in front of negatives. *)
Definition Itoa (i : Z) : string := pretty i.

Definition quote (s : string) : string :=
  String (ascii_of_nat 34) (s +:+ String (ascii_of_nat 34) "").

Definition ErrSyntax (s : string) : error :=
  "strconv.Atoi: parsing " +:+ quote s +:+ ": invalid syntax".
Definition ErrRange (s : string) : error :=
  "strconv.Atoi: parsing " +:+ quote s +:+ ": value out of range".

Definition digit_val (c : ascii) : option Z :=
  let n := Z.of_N (N_of_ascii c) in
  if (48 <=? n) && (n <=? 57) then Some (n - 48) else None.

(** The digit loop of [Atoi]: [n = n*10 + int(ch - '0')], left to right. *)
Fixpoint parse_digits (s : string) (acc : Z) : option Z :=
  match s with
  | EmptyString => Some acc
  | String c s' =>
      match digit_val c with
      | Some d => parse_digits s' (acc * 10 + d)
      | None => None
      end
  end.

(** [strconv.Atoi]: optional sign, at least one digit, digits only, and
    the value has to fit [int]. *)
Definition Atoi (s : string) : result Z :=
  let '(neg, body) :=
    match s with
    | String c r =>
        if Ascii.eqb c "-" then (true, r)
        else if Ascii.eqb c "+" then (false, r)
        else (false, s)
    | EmptyString => (false, s)
    end in
  match body with
  | EmptyString => Err (ErrSyntax s)
  | _ =>
      match parse_digits body 0 with
      | None => Err (ErrSyntax s)
      | Some n =>
          let v := if neg then - n else n in
          if in_int64 v then Ok v else Err (ErrRange s)
      end
  end.

(** The last [k] digits of [y], zeros in front included. *)
Fixpoint padded (k : nat) (y : N) : string :=
  match k with
  | O => ""
  | S k' => padded k' (y `div` 10)%N +:+ String (pretty_N_char (y `mod` 10)) ""
  end.

(** [s] is a numeral of [n]: digits only, at least one, with value [n]
    (zeros in front allowed). *)
Definition numeral (s : string) (n : Z) : Prop :=
  s ≠ "" ∧ parse_digits s 0 = Some n.

End strconv.

Module strings.

(** [strings.TrimPrefix] when the prefix is there, [None] when not. *)
Fixpoint strip_prefix (prefix s : string) : option string :=
  match prefix, s with
  | EmptyString, _ => Some s
  | String a p', String b s' => if Ascii.eqb a b then strip_prefix p' s' else None
  | String _ _, EmptyString => None
  end.

Definition HasPrefix (s prefix : string) : bool :=
  match strip_prefix prefix s with Some _ => true | None => false end.

Definition TrimPrefix (s prefix : string) : string :=
  match strip_prefix prefix s with Some r => r | None => s end.

End strings.

(** ** Package gogram: [network.go] *)

Module gogram.

Definition bytes := list Byte.byte.

(** [reflect.Type], by name. *)
Definition reflect_Type := string.

(** [tl.Object]: the two kinds [isNullableResponse] singles out,
    [objects.Null], and every other protocol object. *)
Inductive Object : Type :=
| Pong (MsgID PingID : Z)
| MsgsAck (MsgIDs : list Z)
| Null
| OtherObject (crc : Z) (fields : list Z).

(** [messages.Common] with its two envelopes. *)
Inductive Common : Type :=
| Encrypted (Msg : bytes) (MsgID : Z) (AuthKeyHash : bytes)
| Unencrypted (Msg : bytes) (MsgID : Z).

(** A [chan tl.Object] is a reference into the store of channels. *)
Abbreviation chan := nat.

(** The transport interface: [WriteMsg] answers [nil] or an error. *)
Record Transport : Type := mkTransport {
  WriteMsg : Common → bool → Z → option error
}.

Record MTProto : Type := mkMTProto {
  lastMessageID : Z;
  seqNo : Z;
  encrypted : bool;
  authKeyHash : bytes;
  serviceModeActivated : bool;
  serviceChannel : chan;
  responseChannels : gmap Z chan;
  expectedTypes : gmap Z (list reflect_Type);
  transport : option Transport
}.

Definition set_lastMessageID (v : Z) (m : MTProto) : MTProto :=
  mkMTProto v (seqNo m) (encrypted m) (authKeyHash m) (serviceModeActivated m)
    (serviceChannel m) (responseChannels m) (expectedTypes m) (transport m).
Definition set_seqNo (v : Z) (m : MTProto) : MTProto :=
  mkMTProto (lastMessageID m) v (encrypted m) (authKeyHash m) (serviceModeActivated m)
    (serviceChannel m) (responseChannels m) (expectedTypes m) (transport m).
Definition set_responseChannels (v : gmap Z chan) (m : MTProto) : MTProto :=
  mkMTProto (lastMessageID m) (seqNo m) (encrypted m) (authKeyHash m) (serviceModeActivated m)
    (serviceChannel m) v (expectedTypes m) (transport m).
Definition set_expectedTypes (v : gmap Z (list reflect_Type)) (m : MTProto) : MTProto :=
  mkMTProto (lastMessageID m) (seqNo m) (encrypted m) (authKeyHash m) (serviceModeActivated m)
    (serviceChannel m) (responseChannels m) v (transport m).

(** What the transport was handed: envelope, needs-ack flag, sequence number. *)
Definition Frame : Type := Common * bool * Z.

(** The session together with what surrounds it: the store of channels
    (a channel is the sequence of values offered to its receiver, oldest
    first) and the frames handed to the transport so far. *)
Record World : Type := mkWorld {
  session : MTProto;
  chans : list (list Object);
  wire : list Frame
}.

(** State and error, threaded the way the method bodies do. *)
Definition M (A : Type) : Type := World → World * result A.

Definition ret {A} (a : A) : M A := λ w, (w, Ok a).
Definition fail {A} (e : error) : M A := λ w, (w, Err e).
Definition bind {A B} (c : M A) (k : A → M B) : M B :=
  λ w, match c w with
       | (w', Ok a) => k a w'
       | (w', Err e) => (w', Err e)
       end.

Declare Scope go_scope.
Delimit Scope go_scope with go.
Notation "'do' x <- c ; k" := (bind c (λ x, k))
  (at level 10, x name, c at level 100, k at level 200) : go_scope.
Notation "'do' ' c ; k" := (bind c (λ _ : unit, k))
  (at level 10, c at level 100, k at level 200) : go_scope.

Definition this : M MTProto := λ w, (w, Ok (session w)).
Definition update (f : MTProto → MTProto) : M unit :=
  λ w, (mkWorld (f (session w)) (chans w) (wire w), Ok tt).

(** [make(chan tl.Object)] *)
Definition make_chan : M chan :=
  λ w, (mkWorld (session w) (chans w ++ [[]])%list (wire w), Ok (length (chans w))).

(** [ch <- v], with a receiver on the other side; also the send that
    [sendPacket] leaves to a goroutine of its own. *)
Definition chan_send (ch : chan) (v : Object) : M unit :=
  λ w, (mkWorld (session w) (alter (λ q, (q ++ [v])%list) ch (chans w)) (wire w), Ok tt).

(** [t.WriteMsg(data, ack, seqNo)]: the frame reaches the transport, which
    answers with its error or [nil]. *)
Definition write_msg (t : Transport) (data : Common) (ack : bool) (seq : Z)
  : M (option error) :=
  λ w, (mkWorld (session w) (chans w) (wire w ++ [(data, ack, seq)])%list,
        Ok (WriteMsg t data ack seq)).

(** Functions that [network.go] calls and that are defined elsewhere in
    the repository: the codec's [tl.Marshal], [utils.GenerateMessageId]
    (which also reads the clock, here its first argument) and
    [MessageRequireToAck]. *)
Class Externals : Type := mkExternals {
  Marshal : Object → result bytes;
  GenerateMessageId : Z → Z → Z;
  MessageRequireToAck : Object → bool
}.

(** Modelled from the spec: [utils.GenerateMessageId] is in internal/utils,
    which is not among the sources.  Section 4.2 says of it that the
    dispatcher "computes a new message ID strictly greater than the
    previous one". *)
Definition GenerateMessageId_increasing `{Externals} : Prop :=
  ∀ now prev : Z, prev < GenerateMessageId now prev.

Section Dispatcher.
Context `{Externals}.
Local Open Scope go_scope.

Definition isNullableResponse (t : Object) : bool :=
  match t with
  | Pong _ _ | MsgsAck _ => true
  | _ => false
  end.

Definition getRespChannel : M chan :=
  do m <- this;
  if serviceModeActivated m then ret (serviceChannel m) else make_chan.

Definition GetSeqNo : M Z :=
  do m <- this; ret (seqNo m).

Definition UpdateSeqNo : M Z :=
  do ' update (λ m, set_seqNo (wrap32 (seqNo m + 2)) m);
  do m <- this;
  ret (seqNo m).

Definition sendPacket (now : Z) (request : Object) (expected : list reflect_Type)
  : M chan :=
  match Marshal request with
  | Err err => fail ("marshaling request: " +:+ err)
  | Ok msg =>
      do m <- this;
      let msgID := GenerateMessageId now (lastMessageID m) in
      do ' update (set_lastMessageID msgID);
      do ' (if (0 <? List.length expected)%nat
            then update (λ m, set_expectedTypes (<[msgID := expected]> (expectedTypes m)) m)
            else ret tt);
      do resp <- getRespChannel;
      do ' (if isNullableResponse request
            then chan_send resp Null
            else update (λ m, set_responseChannels (<[msgID := resp]> (responseChannels m)) m));
      do m <- this;
      let data :=
        if encrypted m then Encrypted msg msgID (authKeyHash m)
        else Unencrypted msg msgID in
      do seqNo <- UpdateSeqNo;
      let seqNo := if negb (encrypted m) then 0 else seqNo in
      match transport m with
      | None => fail "transport is nil, please use SetTransport"
      | Some t =>
          do errorSendPacket <- write_msg t data (MessageRequireToAck request) seqNo;
          match errorSendPacket with
          | Some e => fail ("writing message: " +:+ e)
          | None => ret resp
          end
      end
  end.

Definition writeRPCResponse (msgID : Z) (data : Object) : M unit :=
  do m <- this;
  match responseChannels m !! msgID with
  | None => fail ("no response channel found for messageId " +:+ strconv.Itoa msgID)
  | Some v =>
      do ' chan_send v data;
      do ' update (λ m, set_responseChannels (delete msgID (responseChannels m)) m);
      do ' update (λ m, set_expectedTypes (delete msgID (expectedTypes m)) m);
      ret tt
  end.

(** The error of [writeRPCResponse], [UnknownMessageId] in the
    specification's taxonomy. *)
Definition UnknownMessageId (msgID : Z) : error :=
  "no response channel found for messageId " +:+ strconv.Itoa msgID.

(** One submitted request: the clock reading at the call and the arguments. *)
Record Call : Type := mkCall {
  call_now : Z;
  call_request : Object;
  call_expected : list reflect_Type
}.

(** Successive [sendPacket] calls on one session, with what each returned. *)
Fixpoint sendPackets (calls : list Call) (w : World) : World * list (result chan) :=
  match calls with
  | [] => (w, [])
  | c :: rest =>
      let '(w1, r) := sendPacket (call_now c) (call_request c) (call_expected c) w in
      let '(w2, rs) := sendPackets rest w1 in
      (w2, r :: rs)
  end.

End Dispatcher.

End gogram.

(** ** Package encoding/json (Go standard library), as [cache.go] uses it

    Documents are kept as trees; the text layer between tree and [[]byte]
    belongs to the library and is left out. *)

Module json.

#[warnings="-register-all"]
Inductive Value : Type :=
| Null
| Bool (b : bool)
| Number (n : Z)
| Str (s : string)
| Array (l : list Value)
| Object (fields : list (string * Value)).

Definition key_le (a b : string * Value) : Prop := String.leb a.1 b.1 = true.
Global Instance key_le_dec a b : Decision (key_le a b).
Proof. unfold key_le. apply _. Defined.

(** A [map[int64]int64] becomes an object whose names are the decimal
    keys, sorted as strings. *)
Definition marshal_entry (kv : Z * Z) : string * Value :=
  (strconv.Itoa kv.1, Number kv.2).
Definition marshal_map (m : gmap Z Z) : Value :=
  Object (merge_sort key_le (marshal_entry <$> map_to_list m)).

(** A struct field tagged [omitempty] is left out when its map is empty. *)
Definition omitempty (name : string) (m : gmap Z Z) : list (string * Value) :=
  if bool_decide (m = ∅) then [] else [(name, marshal_map m)].

Definition lower (c : ascii) : ascii :=
  let n := nat_of_ascii c in
  if ((65 <=? n) && (n <=? 90))%nat then ascii_of_nat (n + 32) else c.
Fixpoint fold_case (s : string) : string :=
  match s with
  | EmptyString => EmptyString
  | String c r => String (lower c) (fold_case r)
  end.

(** Names match a struct field exactly or up to the case of ASCII letters. *)
Definition name_matches (name field : string) : bool :=
  String.eqb (fold_case name) (fold_case field).

Definition type_error (what type : string) : error :=
  "json: cannot unmarshal " +:+ what +:+ " into Go value of type " +:+ type.

(** Only the earliest complaint is kept. *)
Definition saveError (e : option error) (err : error) : option error :=
  match e with Some _ => e | None => Some err end.

Definition kind (v : Value) : string :=
  match v with
  | Null => "null" | Bool _ => "bool" | Number _ => "number"
  | Str _ => "string" | Array _ => "array" | Object _ => "object"
  end.

(** A value decoded into a fresh [int64]: what does not fit leaves the
    zero there and is complained about; [null] leaves the zero silently. *)
Definition unmarshal_int64 (v : Value) (e : option error) : Z * option error :=
  match v with
  | Number n =>
      if in_int64 n then (n, e)
      else (0, saveError e (type_error ("number " +:+ strconv.Itoa n) "int64"))
  | Null => (0, e)
  | _ => (0, saveError e (type_error (kind v) "int64"))
  end.

(** One member of an object decoded into a [map[int64]int64] that is
    already there: the value first, then the name as a base-10 key; a
    member whose name is no [int64] is dropped with a complaint. *)
Definition unmarshal_entry (st : gmap Z Z * option error) (kv : string * Value)
  : gmap Z Z * option error :=
  let '(m, e) := st in
  let '(subv, e) := unmarshal_int64 kv.2 e in
  match strconv.Atoi kv.1 with
  | Err _ => (m, saveError e (type_error ("number " +:+ kv.1) "int64"))
  | Ok k => (<[k := subv]> m, e)
  end.

(** A value decoded into a map field: existing entries are kept and the
    members of the object are set over them; [null] empties the field. *)
Definition unmarshal_map (st : gmap Z Z * option error) (v : Value)
  : gmap Z Z * option error :=
  let '(m, e) := st in
  match v with
  | Object fields => foldl unmarshal_entry (m, e) fields
  | Null => (∅, e)
  | _ => (m, saveError e (type_error (kind v) "map[int64]int64"))
  end.

(** What the type [map[int64]int64] says of keys and values. *)
Definition int64_map (m : gmap Z Z) : Prop :=
  ∀ k v, m !! k = Some v → is_int64 k ∧ is_int64 v.

End json.

(** ** Package telegram: [cache.go] *)

Module telegram.

(** The generated protocol types, with the fields [cache.go] reads. *)
Module UserObj.
Record t : Type := mk { ID : Z; AccessHash : Z; FirstName : string }.
End UserObj.
Module Channel.
Record t : Type := mk { ID : Z; AccessHash : Z; Title : string }.
End Channel.
Module ChatObj.
Record t : Type := mk { ID : Z; Title : string }.
End ChatObj.

(** Interface [User]. *)
Inductive User : Type :=
| User_UserObj (u : UserObj.t)
| User_UserEmpty (id : Z).

(** Interface [Chat]. *)
Inductive Chat : Type :=
| Chat_ChatObj (c : ChatObj.t)
| Chat_Channel (c : Channel.t)
| Chat_Other (id : Z).

(** Interface [MessagesChats]. *)
Inductive MessagesChats : Type :=
| MessagesChatsObj (Chats : list Chat)
| MessagesChatsSlice (Count : Z) (Chats : list Chat).

Inductive InputUser : Type :=
| InputUserObj (UserID AccessHash : Z).

Inductive InputChannel : Type :=
| InputChannelObj (ChannelID AccessHash : Z).

Inductive InputPeer : Type :=
| InputPeerUser (UserID AccessHash : Z)
| InputPeerChat (ChatID : Z)
| InputPeerChannel (ChannelID AccessHash : Z).

Record InputPeerCache : Type := mkInputPeerCache {
  InputChannels : gmap Z Z;
  InputUsers : gmap Z Z;
  InputChats : gmap Z Z
}.

Record CACHE : Type := mkCACHE {
  chats : gmap Z ChatObj.t;
  users : gmap Z UserObj.t;
  channels : gmap Z Channel.t;
  InputPeers : InputPeerCache
}.

Definition NewCache : CACHE :=
  mkCACHE ∅ ∅ ∅ (mkInputPeerCache ∅ ∅ ∅).

(** [for k, v := range m]: the entries in some order.  Every loop below
    stops at the first entry that matches; [range_find_order] shows that
    the order does not matter when at most one entry can match. *)
Definition range {V} (m : gmap Z V) : list (Z * V) := map_to_list m.

Definition range_find {V} (p : Z → V → bool) (entries : list (Z * V)) : option (Z * V) :=
  List.find (λ kv, p kv.1 kv.2) entries.

Definition Errorf_d (before : string) (d : Z) (after : string) : error :=
  before +:+ strconv.Itoa d +:+ after.

Definition getUserPeer (c : CACHE) (userID : Z) : result InputUser :=
  match range_find (λ userId _, bool_decide (userId = userID))
          (range (InputUsers (InputPeers c))) with
  | Some (userId, accessHash) => Ok (InputUserObj userId accessHash)
  | None => Err (Errorf_d "no user with id " userID " or missing from cache")
  end.

Definition getChannelPeer (c : CACHE) (channelID : Z) : result InputChannel :=
  match range_find (λ channelId _, bool_decide (channelId = channelID))
          (range (InputChannels (InputPeers c))) with
  | Some (channelId, channelHash) => Ok (InputChannelObj channelId channelHash)
  | None => Err (Errorf_d "no channel with id " channelID " or missing from cache")
  end.

(** The first lines of [GetInputPeer]: an ID whose decimal text starts
    with ["-100"] is replaced by the number after that prefix. *)
Definition normalize (peerID : Z) : result Z :=
  if strings.HasPrefix (strconv.Itoa peerID) "-100" then
    let peerIdStr := strconv.Itoa peerID in
    let peerIdStr := strings.TrimPrefix peerIdStr "-100" in
    match strconv.Atoi peerIdStr with
    | Err err => Err err
    | Ok peerIdInt => Ok peerIdInt
    end
  else Ok peerID.

Definition GetInputPeer (c : CACHE) (peerID : Z) : result InputPeer :=
  match normalize peerID with
  | Err err => Err err
  | Ok peerID =>
      match range_find (λ userId _, bool_decide (userId = peerID))
              (range (InputUsers (InputPeers c))) with
      | Some (userId, userHash) => Ok (InputPeerUser userId userHash)
      | None =>
      match range_find (λ chatId _, bool_decide (chatId = peerID))
              (range (InputChats (InputPeers c))) with
      | Some (chatId, _) => Ok (InputPeerChat chatId)
      | None =>
      match range_find (λ channelId _, bool_decide (channelId = peerID))
              (range (InputChannels (InputPeers c))) with
      | Some (channelId, channelHash) => Ok (InputPeerChannel channelId channelHash)
      | None => Err (Errorf_d "there is no peer with id " peerID " or missing from cache")
      end end end
  end.

(** [json.Marshal(c.InputPeers)]: the three tagged fields in the order of
    the struct, each left out when empty. *)
Definition marshal_InputPeerCache (p : InputPeerCache) : json.Value :=
  json.Object (json.omitempty "channels" (InputChannels p) ++
               json.omitempty "users" (InputUsers p) ++
               json.omitempty "chats" (InputChats p))%list.

(** One member of the document decoded into the struct; names that match
    no field are ignored. *)
Definition unmarshal_field (st : InputPeerCache * option error)
    (member : string * json.Value) : InputPeerCache * option error :=
  let '(p, e) := st in
  let '(name, v) := member in
  if json.name_matches name "channels" then
    let '(m, e) := json.unmarshal_map (InputChannels p, e) v in
    (mkInputPeerCache m (InputUsers p) (InputChats p), e)
  else if json.name_matches name "users" then
    let '(m, e) := json.unmarshal_map (InputUsers p, e) v in
    (mkInputPeerCache (InputChannels p) m (InputChats p), e)
  else if json.name_matches name "chats" then
    let '(m, e) := json.unmarshal_map (InputChats p, e) v in
    (mkInputPeerCache (InputChannels p) (InputUsers p) m, e)
  else (p, e).

(** [json.Unmarshal(data, c.InputPeers)] *)
Definition unmarshal_InputPeerCache (data : json.Value) (p : InputPeerCache)
  : InputPeerCache * option error :=
  match data with
  | json.Object fields => foldl unmarshal_field (p, None) fields
  | json.Null => (p, None)
  | _ => (p, Some (json.type_error (json.kind data) "telegram.InputPeerCache"))
  end.

Definition ExportJSON (c : CACHE) : result json.Value :=
  Ok (marshal_InputPeerCache (InputPeers c)).

(** The cache after the call, and the error returned ([None] for [nil]). *)
Definition ImportJSON (c : CACHE) (data : json.Value) : CACHE * option error :=
  let '(p, e) := unmarshal_InputPeerCache data (InputPeers c) in
  (mkCACHE (chats c) (users c) (channels c) p, e).

(** *** Update User/Channel/Chat in cache *)

Definition UpdateUser (c : CACHE) (user : UserObj.t) : CACHE :=
  mkCACHE (chats c)
    (<[UserObj.ID user := user]> (users c))
    (channels c)
    (mkInputPeerCache
       (InputChannels (InputPeers c))
       (<[UserObj.ID user := UserObj.AccessHash user]> (InputUsers (InputPeers c)))
       (InputChats (InputPeers c))).

Definition UpdateChannel (c : CACHE) (channel : Channel.t) : CACHE :=
  mkCACHE (chats c)
    (users c)
    (<[Channel.ID channel := channel]> (channels c))
    (mkInputPeerCache
       (<[Channel.ID channel := Channel.AccessHash channel]> (InputChannels (InputPeers c)))
       (InputUsers (InputPeers c))
       (InputChats (InputPeers c))).

Definition UpdateChat (c : CACHE) (chat : ChatObj.t) : CACHE :=
  mkCACHE (<[ChatObj.ID chat := chat]> (chats c))
    (users c)
    (channels c)
    (mkInputPeerCache
       (InputChannels (InputPeers c))
       (InputUsers (InputPeers c))
       (<[ChatObj.ID chat := ChatObj.ID chat]> (InputChats (InputPeers c)))).

Definition UpdatePeersToCache (cache : CACHE) (u : list User) (c : list Chat) : CACHE :=
  let cache :=
    foldl (λ cache user,
             match user with
             | User_UserObj us => UpdateUser cache us
             | _ => cache
             end) cache u in
  foldl (λ cache chat,
           match chat with
           | Chat_ChatObj ch => UpdateChat cache ch
           | Chat_Channel channel => UpdateChannel cache channel
           | _ => cache
           end) cache c.

(** *** Get Chat/Channel/User from cache or from the server *)

(** A request the cache delegates to the protocol layer. *)
Inductive Fetch : Type :=
| FetchUsersGetUsers (id : list InputUser)
| FetchChannelsGetChannels (id : list InputChannel)
| FetchMessagesGetChats (id : list Z).

(** The generated request methods of [Client], seen from the cache: what
    the server answers to each request. *)
Class Server : Type := mkServer {
  UsersGetUsers : list InputUser → result (list User);
  ChannelsGetChannels : list InputChannel → result MessagesChats;
  MessagesGetChats : list Z → result MessagesChats
}.

Section Client.
Context `{Server}.

(** Each lookup answers with the requests it issued, in order, and its
    result. *)
Definition getUserFromCache (c : CACHE) (userID : Z)
  : list Fetch * result UserObj.t :=
  match range_find (λ _ user, bool_decide (UserObj.ID user = userID))
          (range (users c)) with
  | Some (_, user) => ([], Ok user)
  | None =>
      match getUserPeer c userID with
      | Err err => ([], Err err)
      | Ok userPeer =>
          ([FetchUsersGetUsers [userPeer]],
           match UsersGetUsers [userPeer] with
           | Err err => Err err
           | Ok [] => Err (Errorf_d "no user with id " userID "")
           | Ok (User_UserObj user :: _) => Ok user
           | Ok (_ :: _) => Err (Errorf_d "no user with id " userID "")
           end)
      end
  end.

Definition getChannelFromCache (c : CACHE) (channelID : Z)
  : list Fetch * result Channel.t :=
  let missing := Errorf_d "no channel with id " channelID " or missing from cache" in
  match range_find (λ _ channel, bool_decide (Channel.ID channel = channelID))
          (range (channels c)) with
  | Some (_, channel) => ([], Ok channel)
  | None =>
      match getChannelPeer c channelID with
      | Err err => ([], Err err)
      | Ok channelPeer =>
          ([FetchChannelsGetChannels [channelPeer]],
           match ChannelsGetChannels [channelPeer] with
           | Err err => Err err
           | Ok (MessagesChatsObj []) => Err missing
           | Ok (MessagesChatsObj (Chat_Channel channel :: _)) => Ok channel
           | Ok _ => Err missing
           end)
      end
  end.

Definition getChatFromCache (c : CACHE) (chatID : Z)
  : list Fetch * result ChatObj.t :=
  let missing := Errorf_d "no chat with id " chatID " or missing from cache" in
  match range_find (λ _ chat, bool_decide (ChatObj.ID chat = chatID))
          (range (chats c)) with
  | Some (_, chat) => ([], Ok chat)
  | None =>
      ([FetchMessagesGetChats [chatID]],
       match MessagesGetChats [chatID] with
       | Err err => Err err
       | Ok (MessagesChatsObj []) => Err missing
       | Ok (MessagesChatsObj (Chat_ChatObj chatObj :: _)) => Ok chatObj
       | Ok _ => Err missing
       end)
  end.

Definition GetUser (c : CACHE) (userID : Z) : list Fetch * result UserObj.t :=
  match getUserFromCache c userID with
  | (log, Err err) => (log, Err err)
  | (log, Ok user) => (log, Ok user)
  end.

Definition GetChannel (c : CACHE) (channelID : Z) : list Fetch * result Channel.t :=
  match getChannelFromCache c channelID with
  | (log, Err err) => (log, Err err)
  | (log, Ok channel) => (log, Ok channel)
  end.

Definition GetChat (c : CACHE) (chatID : Z) : list Fetch * result ChatObj.t :=
  match getChatFromCache c chatID with
  | (log, Err err) => (log, Err err)
  | (log, Ok chat) => (log, Ok chat)
  end.

End Client.

(** Every record is filed under its own ID, as the three [Update]
    functions leave the record maps. *)
Definition records_by_id (c : CACHE) : Prop :=
  (∀ k u, users c !! k = Some u → UserObj.ID u = k) ∧
  (∀ k ch, channels c !! k = Some ch → Channel.ID ch = k) ∧
  (∀ k ch, chats c !! k = Some ch → ChatObj.ID ch = k).

(** An ID that [GetInputPeer] looks up as it stands. *)
Definition normalized (peerID : Z) : Prop :=
  strings.HasPrefix (strconv.Itoa peerID) "-100" = false.

(** The three probes of [GetInputPeer] written as lookups: users, then
    chats, then channels. *)
Definition probe (c : CACHE) (id : Z) : result InputPeer :=
  match InputUsers (InputPeers c) !! id with
  | Some userHash => Ok (InputPeerUser id userHash)
  | None =>
      match InputChats (InputPeers c) !! id with
      | Some _ => Ok (InputPeerChat id)
      | None =>
          match InputChannels (InputPeers c) !! id with
          | Some channelHash => Ok (InputPeerChannel id channelHash)
          | None => Err (Errorf_d "there is no peer with id " id " or missing from cache")
          end
      end
  end.

(** The three index maps hold [int64] keys and values. *)
Definition int64_index (p : InputPeerCache) : Prop :=
  json.int64_map (InputChannels p) ∧ json.int64_map (InputUsers p) ∧
  json.int64_map (InputChats p).

(** The decimal text of [encoded] is ["-100"] followed by a numeral of
    [id]. *)
Definition offset_encoded (id encoded : Z) : Prop :=
  ∃ s, strconv.Itoa encoded = "-100" +:+ s ∧ strconv.numeral s id.

(** The usual way clients mark a channel ID: 10^12 added and the sign
    turned, which for IDs below 10^10 is ["-100"] and then ten digits. *)
Definition marked_channel_id (id : Z) : Z := - 1000000000000 - id.

(** The number that is written ["-100"] and then the digits of [id]. *)
Definition offset_encode (id : Z) : Z :=
  - (100 * 10 ^ Z.of_nat (String.length (strconv.Itoa id)) + id).

End telegram.

(** ** Sample data for the worked instances below *)

Module samples.
Import telegram.

Definition alice : UserObj.t := UserObj.mk 42 9001 "Alice".
Definition news : Channel.t := Channel.mk 1234567890 77 "News".
Definition family : ChatObj.t := ChatObj.mk 7 "Family".

Definition cache1 : CACHE :=
  UpdatePeersToCache NewCache [User_UserObj alice] [Chat_ChatObj family; Chat_Channel news].

(** A client whose every request comes back with an error. *)
Definition offline : Server :=
  mkServer (λ _, Err "transport is nil, please use SetTransport")
           (λ _, Err "transport is nil, please use SetTransport")
           (λ _, Err "transport is nil, please use SetTransport").

(** A codec that refuses objects with constructor 0, message IDs taken
    from the clock unless it lags, and acknowledgments for everything but
    the two service kinds. *)
Definition ext : gogram.Externals :=
  gogram.mkExternals
    (λ o, match o with
          | gogram.OtherObject 0 _ => Err "object is not registered"
          | gogram.OtherObject _ _ => Ok [Byte.x01; Byte.x02]
          | _ => Ok [Byte.x00]
          end)
    (λ now prev, if now <=? prev then prev + 4 else now)
    (λ o, negb (gogram.isNullableResponse o)).

Definition tcp : gogram.Transport := gogram.mkTransport (λ _ _ _, None).

(** A new session: counters at zero, empty tables, no channel yet. *)
Definition session0 (encrypted : bool) (t : option gogram.Transport) : gogram.World :=
  gogram.mkWorld (gogram.mkMTProto 0 0 encrypted [] false 0%nat ∅ ∅ t) [] [].

Definition ping : gogram.Object := gogram.OtherObject 2059302892 [5].
Definition unregistered : gogram.Object := gogram.OtherObject 0 [].

Definition three_pings : list gogram.Call :=
  [gogram.mkCall 100 ping []; gogram.mkCall 200 ping []; gogram.mkCall 150 ping []].

End samples.

(** ** Package gogram: the rest of [network.go] *)

Module mtproto.
Import gogram.

(** [session.Session], with the fields [SaveSession] and [LoadSession]
    name. *)
Record Session : Type := mkSession {
  Key : bytes;
  Hash : bytes;
  Salt : Z;
  Hostname : string;
  AppID : Z
}.

(** The session storage interface: [Store] and [Delete] answer [nil] or an
    error. *)
Record SessionLoader : Type := mkSessionLoader {
  Store : Session → option error;
  Delete : option error
}.

(** The whole [MTProto] struct: the fields the send path works on, and
    around them the ones it leaves alone. *)
Record Conn : Type := mkConn {
  mt : MTProto;
  authKey : bytes;
  serverSalt : Z;
  sessionId : Z;
  Addr : string;
  appID : Z;
  sessionStorage : SessionLoader;
  serverRequestHandlers : list (Object → bool)
}.

Definition set_authKeyHash (v : bytes) (m : MTProto) : MTProto :=
  mkMTProto (lastMessageID m) (seqNo m) (encrypted m) v (serviceModeActivated m)
    (serviceChannel m) (responseChannels m) (expectedTypes m) (transport m).

(** [utils.AuthKeyHash], defined elsewhere in the repository. *)
Class Hashing : Type := mkHashing {
  AuthKeyHash : bytes → bytes
}.

Definition GetSessionID (c : Conn) : Z := sessionId c.
Definition GetServerSalt (c : Conn) : Z := serverSalt c.
Definition GetAuthKey (c : Conn) : bytes := authKey c.

Definition SetAuthKey `{Hashing} (key : bytes) (c : Conn) : Conn :=
  mkConn (set_authKeyHash (AuthKeyHash key) (mt c)) key (serverSalt c) (sessionId c)
    (Addr c) (appID c) (sessionStorage c) (serverRequestHandlers c).

Definition AddCustomServerRequestHandler (handler : Object → bool) (c : Conn) : Conn :=
  mkConn (mt c) (authKey c) (serverSalt c) (sessionId c) (Addr c) (appID c)
    (sessionStorage c) (serverRequestHandlers c ++ [handler])%list.

(** The record handed to [Store], and what [Store] answered. *)
Definition SaveSession (c : Conn) : Session * option error :=
  let s := mkSession (authKey c) (authKeyHash (mt c)) (serverSalt c) (Addr c) (appID c) in
  (s, Store (sessionStorage c) s).

Definition DeleteSession (c : Conn) : option error := Delete (sessionStorage c).

Definition LoadSession (s : Session) (c : Conn) : Conn :=
  mkConn (set_authKeyHash (Hash s) (mt c)) (Key s) (Salt s) (sessionId c)
    (Hostname s) (AppID s) (sessionStorage c) (serverRequestHandlers c).


(** The reply handles among the results of a run of [sendPacket] calls. *)
Definition handles (rs : list (result chan)) : list chan :=
  omap (λ r, match r with Ok h => Some h | Err _ => None end) rs.

(** What happens on a session: a request goes out or a reply comes in. *)
Inductive Op : Type :=
| Send (c : Call)
| Deliver (msgID : Z) (data : Object).

Section Traffic.
Context `{Externals}.

Fixpoint traffic (ops : list Op) (w : World) : World :=
  match ops with
  | [] => w
  | Send c :: rest =>
      traffic rest (sendPacket (call_now c) (call_request c) (call_expected c) w).1
  | Deliver msgID data :: rest => traffic rest (writeRPCResponse msgID data w).1
  end.

(** The calls that file a reply slot: the codec accepts the request and
    it is not a [Pong] or [MsgsAck]. *)
Definition files_slot (c : Call) : bool :=
  match Marshal (call_request c) with
  | Ok _ => negb (isNullableResponse (call_request c))
  | Err _ => false
  end.

End Traffic.

(** No entry of either table is filed under an ID above [lastMessageID]. *)
Definition pending_below (w : World) : Prop :=
  ∀ k, is_Some (responseChannels (session w) !! k)
       ∨ is_Some (expectedTypes (session w) !! k) →
       k ≤ lastMessageID (session w).

End mtproto.

(** ** Package telegram: the rest of [cache.go] *)

Module cache.
Import telegram.

Definition GetPeerUser (c : CACHE) (userID : Z) : result InputPeer :=
  match InputUsers (InputPeers c) !! userID with
  | Some peer => Ok (InputPeerUser userID peer)
  | None => Err (Errorf_d "no user with id " userID " or missing from cache")
  end.

Definition GetPeerChannel (c : CACHE) (channelID : Z) : result InputPeer :=
  match InputChannels (InputPeers c) !! channelID with
  | Some peer => Ok (InputPeerChannel channelID peer)
  | None => Err (Errorf_d "no channel with id " channelID " or missing from cache")
  end.

(** The ID a peer reference carries. *)
Definition InputPeer_ID (p : InputPeer) : Z :=
  match p with
  | InputPeerUser UserID _ => UserID
  | InputPeerChat ChatID => ChatID
  | InputPeerChannel ChannelID _ => ChannelID
  end.

(** The IDs of the objects of a batch that [UpdatePeersToCache] files. *)
Definition user_ids (u : list User) : list Z :=
  omap (λ user, match user with User_UserObj us => Some (UserObj.ID us) | _ => None end) u.
Definition chat_ids (c : list Chat) : list Z :=
  omap (λ chat, match chat with
                | Chat_ChatObj ch => Some (ChatObj.ID ch)
                | Chat_Channel ch => Some (Channel.ID ch)
                | Chat_Other _ => None
                end) c.

(** The two loop bodies of [UpdatePeersToCache]. *)
Definition add_user (cache : CACHE) (user : User) : CACHE :=
  match user with
  | User_UserObj us => UpdateUser cache us
  | _ => cache
  end.
Definition add_chat (cache : CACHE) (chat : Chat) : CACHE :=
  match chat with
  | Chat_ChatObj ch => UpdateChat cache ch
  | Chat_Channel channel => UpdateChannel cache channel
  | _ => cache
  end.

(** Every cached record has its entry in the index of its kind, with the
    access hash of the record (for a chat, its own ID). *)
Definition index_agrees (c : CACHE) : Prop :=
  (∀ k u, users c !! k = Some u →
          InputUsers (InputPeers c) !! k = Some (UserObj.AccessHash u)) ∧
  (∀ k ch, channels c !! k = Some ch →
           InputChannels (InputPeers c) !! k = Some (Channel.AccessHash ch)) ∧
  (∀ k ch, chats c !! k = Some ch → InputChats (InputPeers c) !! k = Some k).

(** *** The journal file

    The file [cache.journal] is absent, or of length zero, or holds a text:
    a JSON document, or something [encoding/json] refuses with a syntax
    error. *)
Inductive File : Type :=
| ZeroLength
| Text (parsed : result json.Value).

(** A line of the logger: the message and the error after it. *)
Definition LogLine : Type := string * error.

(** What the operating system may refuse during one [flushToFile]: creating
    the file, writing to it (leaving part of the text there or none of it),
    closing it. *)
Record FlushFaults : Type := mkFlushFaults {
  create_err : option error;
  write_err : option (error * bool);
  close_err : option error
}.

(** What it may refuse during one [loadFromFile] of a file that is there:
    opening it, asking its size, reading it. *)
Record LoadFaults : Type := mkLoadFaults {
  open_err : option error;
  stat_err : option error;
  read_err : option error
}.

(** [json.Marshal(c)]: of the fields of [CACHE] only [InputPeers] is
    exported and has a name; its pointer is never nil in a cache made by
    [NewCache], so [omitempty] does not drop it. *)
Definition marshal_CACHE (c : CACHE) : json.Value :=
  json.Object [("input_peers", marshal_InputPeerCache (InputPeers c))].

(** One member of the document decoded into [c]: only ["input_peers"]
    matches a field.  The pointer [c.InputPeers] is [None] when nil: [null]
    makes it nil, an object is decoded into what it points to, or into a new
    struct when it is nil. *)
Definition unmarshal_CACHE_field (st : option InputPeerCache * option error)
    (member : string * json.Value) : option InputPeerCache * option error :=
  let '(ip, e) := st in
  let '(name, v) := member in
  if json.name_matches name "input_peers" then
    match v with
    | json.Null => (None, e)
    | json.Object fields =>
        let p := match ip with
                 | Some p => p
                 | None => mkInputPeerCache ∅ ∅ ∅
                 end in
        let '(p', e') := foldl unmarshal_field (p, e) fields in
        (Some p', e')
    | _ => (ip, json.saveError e (json.type_error (json.kind v) "telegram.InputPeerCache"))
    end
  else (ip, e).

(** [json.Unmarshal(data, c)] on the bytes of the file: a text that is not
    JSON is refused before anything is decoded. *)
Definition unmarshal_CACHE (text : result json.Value) (ip : option InputPeerCache)
  : option InputPeerCache * option error :=
  match text with
  | Err syntax => (ip, Some syntax)
  | Ok (json.Object fields) => foldl unmarshal_CACHE_field (ip, None) fields
  | Ok json.Null => (ip, None)
  | Ok data => (ip, Some (json.type_error (json.kind data) "telegram.CACHE"))
  end.

(** [flushToFile]: the file afterwards, the lines logged, and whether the
    timer was set again.  [json.Marshal] cannot fail on this struct, so its
    error branch is not here.  A write that fails part of the way leaves the
    beginning of an object, which is not a document. *)
Definition flushToFile (c : CACHE) (journal : option File) (faults : FlushFaults)
  : option File * list LogLine * bool :=
  let data := marshal_CACHE c in
  match create_err faults with
  | Some err => (journal, [("Error while creating cache.journal: ", err)], false)
  | None =>
      match write_err faults with
      | Some (err, partly) =>
          (Some (if partly then Text (Err "unexpected end of JSON input") else ZeroLength),
           [("Error while writing cache.journal: ", err)], false)
      | None =>
          match close_err faults with
          | Some err =>
              (Some (Text (Ok data)), [("Error while closing cache.journal: ", err)], false)
          | None => (Some (Text (Ok data)), [], true)
          end
      end
  end.

(** [loadFromFile]: the pointer [c.InputPeers] afterwards and the lines
    logged. *)
Definition loadFromFile (c : CACHE) (journal : option File) (faults : LoadFaults)
  : option InputPeerCache * list LogLine :=
  let unchanged := Some (InputPeers c) in
  match journal with
  | None => (unchanged, [])
  | Some file =>
      match open_err faults with
      | Some err => (unchanged, [("Error while opening cache.journal: ", err)])
      | None =>
          match stat_err faults with
          | Some err =>
              (unchanged, [("Error while getting cache.journal file info: ", err)])
          | None =>
              match file with
              | ZeroLength => (unchanged, [])
              | Text text =>
                  match read_err faults with
                  | Some err => (unchanged, [("Error while reading cache.journal: ", err)])
                  | None =>
                      match unmarshal_CACHE text unchanged with
                      | (ip, Some err) =>
                          (ip, [("Error while unmarshalling cache.journal: ", err)])
                      | (ip, None) => (ip, [])
                      end
                  end
              end
          end
      end
  end.

Definition no_flush_faults : FlushFaults := mkFlushFaults None None None.
Definition no_load_faults : LoadFaults := mkLoadFaults None None None.

End cache.

Module samples_more.
Import telegram.

(** A cache that knows a handle for user 5 and for channel 5 and has no
    record of either. *)
Definition handles_only : CACHE :=
  mkCACHE ∅ ∅ ∅ (mkInputPeerCache {[5 := 8]} {[5 := 9]} ∅).

(** A server that answers every request with the same objects. *)
Definition helpful : Server :=
  mkServer (λ _, Ok [User_UserObj samples.alice])
           (λ _, Ok (MessagesChatsObj [Chat_Channel samples.news]))
           (λ _, Ok (MessagesChatsObj [])).

(** A cache that knows a handle for user 5 only, and one that knows a
    handle for channel 5 only. *)
Definition user_handle_only : CACHE :=
  mkCACHE ∅ ∅ ∅ (mkInputPeerCache ∅ {[5 := 9]} ∅).
Definition channel_handle_only : CACHE :=
  mkCACHE ∅ ∅ ∅ (mkInputPeerCache {[5 := 8]} ∅ ∅).

(** A user whose ID reads like a channel ID with the prefix, and the user
    whose ID is what stands behind the prefix. *)
Definition bob : UserObj.t := UserObj.mk (-1005) 11 "Bob".
Definition carol : UserObj.t := UserObj.mk 5 22 "Carol".

(** A transport that refuses every frame. *)
Definition jammed : gogram.Transport := gogram.mkTransport (λ _ _ _, Some "broken pipe").

(** A new session in service mode: one channel, made beforehand, takes
    every reply. *)
Definition service0 : gogram.World :=
  gogram.mkWorld (gogram.mkMTProto 0 0 true [] true 0%nat ∅ ∅ (Some samples.tcp)) [[]] [].

(** A request goes out, its reply comes in, a second request goes out. *)
Definition ping_pong_ping : list mtproto.Op :=
  [mtproto.Send (gogram.mkCall 100 samples.ping ["Pong"]);
   mtproto.Deliver 100 (gogram.Pong 100 5);
   mtproto.Send (gogram.mkCall 50 samples.ping [])].

(** A stand-in for the key hash: the first byte of the key. *)
Definition first_byte : mtproto.Hashing := mtproto.mkHashing (take 1).

Definition stored : mtproto.Session :=
  mtproto.mkSession [Byte.x0a; Byte.x0b] [Byte.x0c] 17 "149.154.167.50:443" 6.

Definition conn0 : mtproto.Conn :=
  mtproto.mkConn (gogram.session (samples.session0 true (Some samples.tcp))) [] 0 1 "" 0
    (mtproto.mkSessionLoader (λ _, None) None) [].

End samples_more.

(** ** Package telegram: [utils.go] *)

Module utils.

(** [x + y] on an [int]: two's complement wrap-around at 64 bits. *)
Definition wrap64 (z : Z) : Z := (z + 2 ^ 63) mod 2 ^ 64 - 2 ^ 63.

Record Mime : Type := mkMime {
  Extension : string;
  Mime_ : string
}.

Definition MimeTypes : list Mime :=
  [mkMime ".3gp" "video/3gpp";
   mkMime ".7z" "application/x-7z-compressed";
   mkMime ".aac" "audio/x-aac";
   mkMime ".abw" "application/x-abiword";
   mkMime ".arc" "application/x-freearc";
   mkMime ".avi" "video/x-msvideo";
   mkMime ".azw" "application/vnd.amazon.ebook";
   mkMime ".bin" "application/octet-stream";
   mkMime ".bmp" "image/bmp";
   mkMime ".bz" "application/x-bzip";
   mkMime ".bz2" "application/x-bzip2";
   mkMime ".csh" "application/x-csh";
   mkMime ".css" "text/css";
   mkMime ".csv" "text/csv";
   mkMime ".doc" "application/msword";
   mkMime ".docx" "application/vnd.openxmlformats-officedocument.wordprocessingml.document";
   mkMime ".eot" "application/vnd.ms-fontobject";
   mkMime ".epub" "application/epub+zip";
   mkMime ".gz" "application/gzip";
   mkMime ".gif" "image/gif";
   mkMime ".htm" "text/html";
   mkMime ".html" "text/html";
   mkMime ".ico" "image/vnd.microsoft.icon";
   mkMime ".ics" "text/calendar";
   mkMime ".jar" "application/java-archive";
   mkMime ".jpeg" "image/jpeg";
   mkMime ".jpg" "image/jpeg";
   mkMime ".js" "text/javascript";
   mkMime ".json" "application/json";
   mkMime ".jsonld" "application/ld+json";
   mkMime ".mid" "audio/midi audio/x-midi";
   mkMime ".midi" "audio/midi audio/x-midi";
   mkMime ".mjs" "text/javascript";
   mkMime ".mp3" "audio/mpeg";
   mkMime ".mpeg" "video/mpeg";
   mkMime ".mpkg" "application/vnd.apple.installer+xml";
   mkMime ".odp" "application/vnd.oasis.opendocument.presentation";
   mkMime ".ods" "application/vnd.oasis.opendocument.spreadsheet";
   mkMime ".odt" "application/vnd.oasis.opendocument.text";
   mkMime ".oga" "audio/ogg";
   mkMime ".ogv" "video/ogg";
   mkMime ".ogx" "application/ogg";
   mkMime ".opus" "audio/opus";
   mkMime ".otf" "font/otf";
   mkMime ".png" "image/png";
   mkMime ".pdf" "application/pdf";
   mkMime ".php" "application/x-httpd-php";
   mkMime ".ppt" "application/vnd.ms-powerpoint";
   mkMime ".pptx" "application/vnd.openxmlformats-officedocument.presentationml.presentation";
   mkMime ".rar" "application/vnd.rar";
   mkMime ".rtf" "application/rtf";
   mkMime ".sh" "application/x-sh";
   mkMime ".svg" "image/svg+xml";
   mkMime ".swf" "application/x-shockwave-flash";
   mkMime ".tar" "application/x-tar";
   mkMime ".tif" "image/tiff";
   mkMime ".tiff" "image/tiff";
   mkMime ".ts" "video/mp2t";
   mkMime ".ttf" "font/ttf";
   mkMime ".txt" "text/plain";
   mkMime ".vsd" "application/vnd.visio";
   mkMime ".wav" "audio/wav";
   mkMime ".weba" "audio/webm";
   mkMime ".webm" "video/webm";
   mkMime ".webp" "image/webp";
   mkMime ".woff" "font/woff";
   mkMime ".woff2" "font/woff2";
   mkMime ".xhtml" "application/xhtml+xml";
   mkMime ".xls" "application/vnd.ms-excel";
   mkMime ".xlsx" "application/vnd.openxmlformats-officedocument.spreadsheetml.sheet";
   mkMime ".xml" "application/xml";
   mkMime ".xul" "application/vnd.mozilla.xul+xml";
   mkMime ".zip" "application/zip";
   mkMime ".3gp" "video/3gpp";
   mkMime ".3g2" "video/3gpp2";
   mkMime ".7z" "application/x-7z-compressed"].

(** [strings.HasSuffix]:
    [len(s) >= len(suffix) && s[len(s)-len(suffix):] == suffix]. *)
Definition HasSuffix (s suffix : string) : bool :=
  (String.length suffix <=? String.length s)%nat
  && String.eqb (substring (String.length s - String.length suffix)
                   (String.length suffix) s) suffix.

Fixpoint matchMimeType_in (table : list Mime) (filePath : string) : string :=
  match table with
  | [] => ""
  | mt :: rest =>
      if HasSuffix filePath (Extension mt) then Mime_ mt
      else matchMimeType_in rest filePath
  end.

Definition matchMimeType (filePath : string) : string :=
  matchMimeType_in MimeTypes filePath.

(** How a run of [genByteChunks] stands, with a receiver on the other side
    of [ch]: the channel was closed after the chunks sent, or slicing
    panicked, or the loop is still going. *)
Inductive ChunkRun : Type :=
| Closed (sent : list (list Byte.byte))
| Panicked (sent : list (list Byte.byte))
| Running (sent : list (list Byte.byte)).

(** The loop of [genByteChunks] from index [i], for at most [fuel] rounds.
    [data[i:end]] panics unless [0 <= i <= end]; [end] is never above the
    length. *)
Fixpoint genByteChunks_from (fuel : nat) (data : list Byte.byte) (chunkSize i : Z)
    (sent : list (list Byte.byte)) : ChunkRun :=
  match fuel with
  | O => Running sent
  | S fuel' =>
      if i <? Z.of_nat (length data) then
        let end_ := wrap64 (i + chunkSize) in
        let end_ := if end_ >? Z.of_nat (length data) then Z.of_nat (length data) else end_ in
        if (0 <=? i) && (i <=? end_) then
          genByteChunks_from fuel' data chunkSize (wrap64 (i + chunkSize))
            (sent ++ [take (Z.to_nat (end_ - i)) (drop (Z.to_nat i) data)])
        else Panicked sent
      else Closed sent
  end.

Definition genByteChunks (fuel : nat) (data : list Byte.byte) (chunkSize : Z) : ChunkRun :=
  genByteChunks_from fuel data chunkSize 0 [].

(** [GenerateRandomLong], given the two numbers [rand.Int31] returns. *)
Definition GenerateRandomLong (first second : Z) : Z :=
  Z.lor (wrap64 (Z.shiftl first 32)) second.

Definition getAppropriatedPartSize (fileSize : Z) : Z :=
  if fileSize <? 104857600 then 128 * 1024
  else if fileSize <? 786432000 then 256 * 1024
  else if fileSize <? 2097152000 then 256 * 1024
  else 0.

End utils.

(** * Properties *)

(** ** Decimal text *)

Section strconv_facts.
Import strconv strings.

Example Itoa_neg : strconv.Itoa (-100123) = "-100123".
Proof. reflexivity. Qed.
Example Atoi_pos : strconv.Atoi "0123" = Ok 123.
Proof. reflexivity. Qed.
Example Atoi_empty : strconv.Atoi "" = Err (strconv.ErrSyntax "").
Proof. reflexivity. Qed.
Example Trim_ex : strings.TrimPrefix "-100123" "-100" = "123".
Proof. reflexivity. Qed.

Lemma digit_val_pretty (r : N) :
  (r < 10)%N → digit_val (pretty_N_char r) = Some (Z.of_N r).
Proof.
  intros Hr.
  assert (r = 0 ∨ r = 1 ∨ r = 2 ∨ r = 3 ∨ r = 4 ∨ r = 5
          ∨ r = 6 ∨ r = 7 ∨ r = 8 ∨ r = 9)%N as Hcases by lia.
  repeat destruct Hcases as [-> | Hcases]; try subst r; reflexivity.
Qed.

(** The digits of a positive number, read back from the left, shift the
    accumulator by their count and add the number. *)
Lemma parse_digits_pretty_go (x : N) :
  (0 < x)%N →
  ∃ k : Z, 0 < k ∧ ∀ s acc,
    parse_digits (pretty_N_go x s) acc = parse_digits s (acc * 10 ^ k + Z.of_N x).
Proof.
  induction (N.lt_wf_0 x) as [x _ IH]; intros Hpos.
  assert (Hr : (x `mod` 10 < 10)%N) by (apply N.mod_lt; lia).
  destruct (decide (x < 10)%N) as [Hsmall | Hbig].
  - exists 1. split; [lia |]. intros s acc.
    rewrite pretty_N_go_step by done.
    rewrite (N.div_small x 10) by done. rewrite pretty_N_go_0.
    cbn [parse_digits]. rewrite digit_val_pretty by done.
    rewrite N.mod_small by done. f_equal; lia.
  - destruct (IH (x `div` 10)%N) as (k & Hk & Hgo).
    + apply N.div_lt; lia.
    + apply N.div_str_pos. lia.
    + exists (k + 1). split; [lia |]. intros s acc.
      rewrite pretty_N_go_step by done. rewrite Hgo.
      cbn [parse_digits]. rewrite digit_val_pretty by done.
      pose proof (N.div_mod x 10 ltac:(lia)) as Hdm.
      assert (Z.of_N x = 10 * Z.of_N (x `div` 10) + Z.of_N (x `mod` 10)) by lia.
      f_equal. rewrite Z.pow_add_r by lia. lia.
Qed.

(** The text of a positive number starts with a digit. *)
Lemma pretty_go_head (x : N) (s : string) :
  (0 < x)%N →
  ∃ d s', (d < 10)%N ∧ pretty_N_go x s = String (pretty_N_char d) s'.
Proof.
  revert s. induction (N.lt_wf_0 x) as [x _ IH]; intros s Hpos.
  rewrite pretty_N_go_step by done.
  destruct (decide (x < 10)%N) as [Hsmall | Hbig].
  - rewrite (N.div_small x 10) by done. rewrite pretty_N_go_0.
    exists (x `mod` 10)%N, s. split; [apply N.mod_lt; lia | done].
  - apply IH; [apply N.div_lt; lia | apply N.div_str_pos; lia].
Qed.

Lemma Itoa_pos_head (p : positive) :
  ∃ d s', (d < 10)%N ∧ pretty_N_go (N.pos p) "" = String (pretty_N_char d) s'.
Proof. apply pretty_go_head. lia. Qed.

Lemma in_int64_true (z : Z) : is_int64 z → in_int64 z = true.
Proof.
  unfold is_int64, in_int64. intros [? ?].
  apply andb_true_iff. split; apply Z.leb_le; done.
Qed.

Ltac digit_cases d Hd :=
  let Hcases := fresh "Hcases" in
  assert (d = 0 ∨ d = 1 ∨ d = 2 ∨ d = 3 ∨ d = 4 ∨ d = 5
          ∨ d = 6 ∨ d = 7 ∨ d = 8 ∨ d = 9)%N as Hcases by lia;
  repeat destruct Hcases as [-> | Hcases]; try subst d.

(** [Atoi] on a numeral. *)
Lemma Atoi_numeral (s : string) (n : Z) :
  numeral s n → is_int64 n → Atoi s = Ok n.
Proof.
  intros [Hne Hparse] Hn. destruct s as [| c r]; [done |].
  assert (Hd : is_Some (digit_val c)).
  { cbn [parse_digits] in Hparse. by destruct (digit_val c). }
  assert (Hminus : Ascii.eqb c "-" = false).
  { destruct (Ascii.eqb_spec c "-"%char) as [-> |]; [by destruct Hd | done]. }
  assert (Hplus : Ascii.eqb c "+" = false).
  { destruct (Ascii.eqb_spec c "+"%char) as [-> |]; [by destruct Hd | done]. }
  unfold Atoi. rewrite Hminus, Hplus, Hparse. by rewrite (in_int64_true n Hn).
Qed.

Lemma numeral_Itoa (z : Z) : 0 ≤ z → numeral (Itoa z) z.
Proof.
  intros Hz. destruct z as [| p | p]; [done | | lia].
  unfold Itoa, pretty, pretty_Z, pretty, pretty_positive, pretty, pretty_N.
  rewrite decide_False by done. split.
  - by destruct (Itoa_pos_head p) as (d & s' & _ & ->).
  - destruct (parse_digits_pretty_go (N.pos p)) as (k & _ & Hgo); [lia |].
    rewrite Hgo. cbn [parse_digits]. f_equal; lia.
Qed.

(** [Atoi] reads back what [Itoa] wrote. *)
Lemma Atoi_Itoa (z : Z) : is_int64 z → Atoi (Itoa z) = Ok z.
Proof.
  intros Hz. destruct (decide (0 ≤ z)) as [Hpos | Hneg].
  - by apply Atoi_numeral; [apply numeral_Itoa |].
  - destruct z as [| p | p]; [lia | lia |].
    destruct (numeral_Itoa (Z.pos p)) as [Hne Hparse]; [lia |].
    change (Itoa (Z.neg p)) with (String "-" (Itoa (Z.pos p))).
    unfold Atoi. change (Ascii.eqb "-" "-") with true. cbv beta iota.
    destruct (Itoa (Z.pos p)) as [| c r]; [done |].
    rewrite Hparse. change (- Z.pos p) with (Z.neg p).
    by rewrite (in_int64_true _ Hz).
Qed.

Lemma strip_prefix_app (p s : string) : strip_prefix p (p +:+ s) = Some s.
Proof.
  induction p as [| a p IH]; [done |].
  change (strip_prefix (String a p) (String a (p +:+ s)) = Some s).
  cbn [strip_prefix]. rewrite Ascii.eqb_refl. exact IH.
Qed.

Lemma HasPrefix_app (p s : string) : HasPrefix (p +:+ s) p = true.
Proof. unfold HasPrefix. by rewrite strip_prefix_app. Qed.

Lemma TrimPrefix_app (p s : string) : TrimPrefix (p +:+ s) p = s.
Proof. unfold TrimPrefix. by rewrite strip_prefix_app. Qed.

(** No text of a number that is not negative starts with ["-100"]. *)
Lemma HasPrefix_nonneg (z : Z) : 0 ≤ z → HasPrefix (Itoa z) "-100" = false.
Proof.
  intros Hz. destruct z as [| p | p]; [reflexivity | | lia].
  unfold Itoa, pretty, pretty_Z, pretty, pretty_positive, pretty, pretty_N.
  rewrite decide_False by done.
  destruct (Itoa_pos_head p) as (d & s' & Hd & ->).
  digit_cases d Hd; reflexivity.
Qed.

Lemma string_app_nil_r (s : string) : s +:+ "" = s.
Proof.
  induction s as [| c s IH]; [done |].
  change (String c (s +:+ "") = String c s). by rewrite IH.
Qed.

Lemma string_app_assoc (s1 s2 s3 : string) : (s1 +:+ s2) +:+ s3 = s1 +:+ (s2 +:+ s3).
Proof.
  induction s1 as [| c s1 IH]; [done |].
  change (String c ((s1 +:+ s2) +:+ s3) = String c (s1 +:+ (s2 +:+ s3))). by rewrite IH.
Qed.

Lemma string_length_app (s1 s2 : string) :
  String.length (s1 +:+ s2) = (String.length s1 + String.length s2)%nat.
Proof.
  induction s1 as [| c s1 IH]; [done |].
  change (S (String.length (s1 +:+ s2)) = S (String.length s1 + String.length s2)).
  by rewrite IH.
Qed.

(** The digit writer prepends to what it is given. *)
Lemma pretty_go_app (x : N) (t s : string) :
  pretty_N_go x (t +:+ s) = pretty_N_go x t +:+ s.
Proof.
  revert t. induction (N.lt_wf_0 x) as [x _ IH]; intros t.
  destruct (decide (0 < x)%N) as [Hpos | Hzero].
  - rewrite (pretty_N_go_step x (t +:+ s)), (pretty_N_go_step x t) by done.
    exact (IH _ (N.div_lt x 10 Hpos eq_refl) (String _ t)).
  - assert (x = 0%N) as -> by lia. by rewrite !pretty_N_go_0.
Qed.

Lemma pretty_N_small (y : N) : (y < 10)%N → pretty y = String (pretty_N_char y) "".
Proof.
  intros Hy. unfold pretty, pretty_N. case_decide as Hz; [by subst |].
  rewrite pretty_N_go_step by lia.
  by rewrite N.div_small, pretty_N_go_0, N.mod_small.
Qed.

Lemma pretty_N_big (y : N) :
  (10 ≤ y)%N →
  pretty y = pretty (y `div` 10)%N +:+ String (pretty_N_char (y `mod` 10)) "".
Proof.
  intros Hy. unfold pretty, pretty_N.
  assert (Hq : (0 < y `div` 10)%N) by (apply N.div_str_pos; lia).
  rewrite !decide_False by lia. rewrite pretty_N_go_step by lia.
  exact (pretty_go_app (y `div` 10) "" (String _ "")).
Qed.

(** Writing [a] followed by the digits of [y] is writing the number that
    has [a] shifted left past those digits, plus [y]. *)
Lemma pretty_go_shift (y a : N) (s : string) :
  (0 < a)%N →
  pretty_N_go (a * 10 ^ N.of_nat (String.length (pretty y)) + y) s
  = pretty_N_go a (pretty y +:+ s).
Proof.
  revert s. induction (N.lt_wf_0 y) as [y _ IH]; intros s Ha.
  destruct (decide (y < 10)%N) as [Hsmall | Hbig].
  - rewrite pretty_N_small by done. cbn [String.length String.append].
    change (10 ^ N.of_nat 1)%N with 10%N.
    rewrite pretty_N_go_step by lia.
    rewrite N.div_add_l, (N.div_small y 10), N.add_0_r by (done || lia).
    rewrite (N.add_comm (a * 10)), N.Div0.mod_add, N.mod_small by done. done.
  - rewrite pretty_N_big by lia.
    rewrite string_length_app, string_app_assoc. cbn [String.length String.append].
    set (L := String.length (pretty (y `div` 10)%N)).
    replace (N.of_nat (L + 1)) with (N.succ (N.of_nat L)) by lia.
    rewrite N.pow_succ_r'.
    assert (Hp : (0 < 10 ^ N.of_nat L)%N) by (apply N.neq_0_lt_0, N.pow_nonzero; lia).
    replace (a * (10 * 10 ^ N.of_nat L) + y)%N
      with (a * 10 ^ N.of_nat L * 10 + y)%N by lia.
    rewrite pretty_N_go_step by nia.
    rewrite N.div_add_l by lia.
    rewrite (N.add_comm (a * 10 ^ N.of_nat L * 10)), N.Div0.mod_add.
    apply IH; [apply N.div_lt; lia | done].
Qed.

Lemma parse_digits_app (s1 s2 : string) (acc : Z) :
  parse_digits (s1 +:+ s2) acc
  = match parse_digits s1 acc with
    | Some a => parse_digits s2 a
    | None => None
    end.
Proof.
  revert acc. induction s1 as [| c s1 IH]; intros acc; [done |].
  change (parse_digits (String c (s1 +:+ s2)) acc
          = match parse_digits (String c s1) acc with
            | Some a => parse_digits s2 a
            | None => None
            end).
  cbn [parse_digits]. destruct (digit_val c); [apply IH | done].
Qed.

Lemma parse_digits_padded (k : nat) (y : N) (acc : Z) :
  (y < 10 ^ N.of_nat k)%N →
  parse_digits (padded k y) acc = Some (acc * 10 ^ Z.of_nat k + Z.of_N y).
Proof.
  revert y acc. induction k as [| k IH]; intros y acc Hy.
  - cbn in *. f_equal. lia.
  - cbn [padded]. rewrite parse_digits_app.
    replace (N.of_nat (S k)) with (N.succ (N.of_nat k)) in Hy by lia.
    rewrite N.pow_succ_r' in Hy.
    rewrite IH by (apply N.Div0.div_lt_upper_bound; lia).
    cbn [parse_digits]. rewrite digit_val_pretty by (apply N.mod_lt; lia).
    pose proof (N.div_mod y 10 ltac:(lia)) as Hdm.
    assert (Z.of_N y = 10 * Z.of_N (y `div` 10) + Z.of_N (y `mod` 10)) by lia.
    f_equal. replace (Z.of_nat (S k)) with (Z.of_nat k + 1) by lia.
    rewrite Z.pow_add_r by lia. lia.
Qed.

Lemma padded_nonempty (k : nat) (y : N) : padded (S k) y ≠ "".
Proof. cbn [padded]. by destruct (padded k (y `div` 10)%N). Qed.

Lemma pretty_go_padded (k : nat) (y a : N) (s : string) :
  (0 < a)%N → (y < 10 ^ N.of_nat k)%N →
  pretty_N_go (a * 10 ^ N.of_nat k + y) s = pretty_N_go a (padded k y +:+ s).
Proof.
  revert y s. induction k as [| k IH]; intros y s Ha Hy.
  - change (10 ^ N.of_nat 0)%N with 1%N in Hy |- *.
    assert (y = 0%N) as -> by lia.
    by replace (a * 1 + 0)%N with a by lia.
  - replace (N.of_nat (S k)) with (N.succ (N.of_nat k)) in Hy |- * by lia.
    rewrite N.pow_succ_r' in Hy |- *.
    assert (Hp : (0 < 10 ^ N.of_nat k)%N) by (apply N.neq_0_lt_0, N.pow_nonzero; lia).
    replace (a * (10 * 10 ^ N.of_nat k) + y)%N
      with (a * 10 ^ N.of_nat k * 10 + y)%N by lia.
    rewrite pretty_N_go_step by nia.
    rewrite N.div_add_l by lia.
    rewrite (N.add_comm (a * 10 ^ N.of_nat k * 10)), N.Div0.mod_add.
    rewrite IH by (done || apply N.Div0.div_lt_upper_bound; lia).
    cbn [padded]. by rewrite string_app_assoc.
Qed.

Lemma Itoa_nonneg (id : Z) : 0 ≤ id → Itoa id = pretty (Z.to_N id).
Proof. intros Hid. destruct id; [done | done | lia]. Qed.

End strconv_facts.

(** ** Peer cache *)

Section cache_facts.
Import telegram.

(** A scan by key finds what the map holds under that key, whatever the
    order in which the entries come. *)
Lemma range_find_order {V} (m : gmap Z V) (entries : list (Z * V)) (id : Z) :
  (∀ k v, (k, v) ∈ entries ↔ m !! k = Some v) →
  range_find (λ k _, bool_decide (k = id)) entries = (λ v, (id, v)) <$> m !! id.
Proof.
  intros Hspec. unfold range_find.
  destruct (List.find _ entries) as [[k v] |] eqn:Hfind.
  - apply List.find_some in Hfind as [Hin Hp].
    apply bool_decide_eq_true in Hp. cbn in Hp. subst k.
    apply list_elem_of_In, Hspec in Hin. by rewrite Hin.
  - destruct (m !! id) as [v |] eqn:Hm; [| done].
    apply Hspec, list_elem_of_In in Hm.
    apply (List.find_none _ _ Hfind) in Hm.
    apply bool_decide_eq_false in Hm. by destruct Hm.
Qed.

Lemma range_find_key {V} (m : gmap Z V) (id : Z) :
  range_find (λ k _, bool_decide (k = id)) (range m) = (λ v, (id, v)) <$> m !! id.
Proof. apply range_find_order. intros k v. apply elem_of_map_to_list. Qed.

(** A scan of records by their [ID] field, when every record is filed
    under its own ID. *)
Lemma range_find_record {V} (ID : V → Z) (m : gmap Z V) (entries : list (Z * V)) (id : Z) :
  (∀ k v, (k, v) ∈ entries ↔ m !! k = Some v) →
  (∀ k v, m !! k = Some v → ID v = k) →
  range_find (λ _ v, bool_decide (ID v = id)) entries = (λ v, (id, v)) <$> m !! id.
Proof.
  intros Hspec Hwf. unfold range_find.
  destruct (List.find _ entries) as [[k v] |] eqn:Hfind.
  - apply List.find_some in Hfind as [Hin Hp].
    apply bool_decide_eq_true in Hp. cbn in Hp.
    apply list_elem_of_In, Hspec in Hin.
    pose proof (Hwf _ _ Hin) as Hk. rewrite Hp in Hk. subst k. by rewrite Hin.
  - destruct (m !! id) as [v |] eqn:Hm; [| done].
    pose proof (Hwf _ _ Hm) as Hid.
    apply Hspec, list_elem_of_In in Hm.
    apply (List.find_none _ _ Hfind) in Hm.
    apply bool_decide_eq_false in Hm. by destruct Hm.
Qed.

(** A scan of records finds nothing when no record carries the ID. *)
Lemma range_find_no_record {V} (ID : V → Z) (m : gmap Z V) (id : Z) :
  (∀ k v, m !! k = Some v → ID v ≠ id) →
  range_find (λ _ v, bool_decide (ID v = id)) (range m) = None.
Proof.
  intros Hnone. unfold range_find.
  destruct (List.find _ (range m)) as [[k v] |] eqn:Hfind; [| done].
  apply List.find_some in Hfind as [Hin Hp].
  apply bool_decide_eq_true in Hp. cbn in Hp.
  apply list_elem_of_In, elem_of_map_to_list in Hin.
  by destruct (Hnone _ _ Hin).
Qed.

Lemma records_by_id_NewCache : records_by_id NewCache.
Proof. repeat split; intros k v Hk; cbn in Hk; by rewrite lookup_empty in Hk. Qed.

Lemma records_by_id_UpdateUser c u : records_by_id c → records_by_id (UpdateUser c u).
Proof.
  intros (Hu & Hch & Hc). repeat split; cbn; [| done | done].
  intros k v. rewrite lookup_insert. case_decide; [naive_solver | auto].
Qed.

Lemma records_by_id_UpdateChannel c ch :
  records_by_id c → records_by_id (UpdateChannel c ch).
Proof.
  intros (Hu & Hch & Hc). repeat split; cbn; [done | | done].
  intros k v. rewrite lookup_insert. case_decide; [naive_solver | auto].
Qed.

Lemma records_by_id_UpdateChat c ch : records_by_id c → records_by_id (UpdateChat c ch).
Proof.
  intros (Hu & Hch & Hc). repeat split; cbn; [done | done |].
  intros k v. rewrite lookup_insert. case_decide; [naive_solver | auto].
Qed.

Lemma records_by_id_UpdatePeersToCache c u chs :
  records_by_id c → records_by_id (UpdatePeersToCache c u chs).
Proof.
  intros Hc. unfold UpdatePeersToCache.
  assert (Hu : records_by_id
                 (foldl (λ cache user, match user with
                                       | User_UserObj us => UpdateUser cache us
                                       | _ => cache
                                       end) c u)).
  { revert c Hc. induction u as [| [us | ?] u IH]; intros c Hc; cbn;
      auto using records_by_id_UpdateUser. }
  revert Hu. generalize (foldl (λ cache user, match user with
                                             | User_UserObj us => UpdateUser cache us
                                             | _ => cache
                                             end) c u).
  induction chs as [| [ch | ch | ?] chs IH]; intros c' Hc'; cbn;
    auto using records_by_id_UpdateChat, records_by_id_UpdateChannel.
Qed.

Lemma normalize_normalized id : normalized id → normalize id = Ok id.
Proof. unfold normalized, normalize. by intros ->. Qed.

Lemma nonneg_normalized id : 0 ≤ id → normalized id.
Proof. apply HasPrefix_nonneg. Qed.

Lemma normalize_offset_encoded id e :
  is_int64 id → offset_encoded id e → normalize e = Ok id.
Proof.
  unfold offset_encoded, normalize. intros Hid (s & -> & Hs).
  by rewrite HasPrefix_app, TrimPrefix_app, (Atoi_numeral s id Hs Hid).
Qed.

(** Every ID that is not negative has an encoded form. *)
Lemma offset_encode_encoded (id : Z) : 0 ≤ id → offset_encoded id (offset_encode id).
Proof.
  intros Hid. exists (strconv.Itoa id). split; [| by apply numeral_Itoa].
  unfold offset_encode. rewrite (Itoa_nonneg id Hid).
  set (y := Z.to_N id). set (L := String.length (pretty y)).
  assert (Hpow : 0 < 10 ^ Z.of_nat L) by (apply Z.pow_pos_nonneg; lia).
  assert (Hn : 100 * 10 ^ Z.of_nat L + id
               = Z.of_N (100 * 10 ^ N.of_nat L + y)).
  { rewrite N2Z.inj_add, N2Z.inj_mul, N2Z.inj_pow, nat_N_Z.
    unfold y. rewrite Z2N.id by done. done. }
  rewrite Hn.
  assert (Hpos : (0 < 100 * 10 ^ N.of_nat L + y)%N).
  { assert (0 < 10 ^ N.of_nat L)%N by (apply N.neq_0_lt_0, N.pow_nonzero; lia). lia. }
  destruct (100 * 10 ^ N.of_nat L + y)%N as [| p] eqn:Hp; [lia |].
  change (strconv.Itoa (- Z.of_N (N.pos p))) with ("-" +:+ pretty (N.pos p)).
  unfold pretty at 1, pretty_N. rewrite decide_False by done.
  rewrite <- Hp. unfold L.
  rewrite (pretty_go_shift y 100 "") by lia.
  rewrite string_app_nil_r.
  exact (f_equal (String "-") (pretty_go_app 100 "" (pretty y))).
Qed.

(** So has every ID below 10^10 in the usual marking. *)
Lemma marked_channel_id_encoded (id : Z) :
  0 ≤ id < 10 ^ 10 → offset_encoded id (marked_channel_id id).
Proof.
  intros Hid. exists (strconv.padded 10 (Z.to_N id)). split.
  - unfold marked_channel_id.
    assert (Hn : - 1000000000000 - id = - Z.of_N (100 * 10 ^ N.of_nat 10 + Z.to_N id)) by lia.
    rewrite Hn.
    destruct (100 * 10 ^ N.of_nat 10 + Z.to_N id)%N as [| p] eqn:Hp; [lia |].
    change (strconv.Itoa (- Z.of_N (N.pos p))) with ("-" +:+ pretty (N.pos p)).
    unfold pretty at 1, pretty_N. rewrite decide_False by done.
    rewrite <- Hp, (pretty_go_padded 10 (Z.to_N id) 100 "") by lia.
    rewrite string_app_nil_r.
    exact (f_equal (String "-") (pretty_go_app 100 "" (strconv.padded 10 (Z.to_N id)))).
  - split; [apply padded_nonempty |].
    rewrite parse_digits_padded by lia. f_equal. lia.
Qed.

Lemma GetInputPeer_probe c peerID id :
  normalize peerID = Ok id → GetInputPeer c peerID = probe c id.
Proof.
  intros Hn. unfold GetInputPeer, probe. rewrite Hn, !range_find_key.
  destruct (InputUsers (InputPeers c) !! id); [done |].
  destruct (InputChats (InputPeers c) !! id); [done |].
  by destruct (InputChannels (InputPeers c) !! id).
Qed.

(** Both ways of writing a channel ID with the prefix resolve like the
    bare ID. *)
Lemma GetInputPeer_offset_encode (c : CACHE) (id : Z) :
  0 ≤ id → is_int64 id → GetInputPeer c (offset_encode id) = GetInputPeer c id.
Proof.
  intros Hpos Hid.
  rewrite (GetInputPeer_probe c _ id
             (normalize_offset_encoded id _ Hid (offset_encode_encoded id Hpos))).
  by rewrite (GetInputPeer_probe c id id (normalize_normalized id (nonneg_normalized id Hpos))).
Qed.

Lemma GetInputPeer_marked_channel_id (c : CACHE) (id : Z) :
  0 ≤ id < 10 ^ 10 → GetInputPeer c (marked_channel_id id) = GetInputPeer c id.
Proof.
  intros Hid.
  assert (His : is_int64 id) by (unfold is_int64, MinInt64, MaxInt64; lia).
  rewrite (GetInputPeer_probe c _ id
             (normalize_offset_encoded id _ His (marked_channel_id_encoded id Hid))).
  by rewrite (GetInputPeer_probe c id id
                (normalize_normalized id (nonneg_normalized id ltac:(lia)))).
Qed.

Example offset_encode_news : offset_encode 1234567890 = -1001234567890.
Proof. reflexivity. Qed.
Example marked_channel_id_small : strconv.Itoa (marked_channel_id 5) = "-1000000000005".
Proof. reflexivity. Qed.

End cache_facts.

Section cache_claims.
Import telegram.

(** C7. For a normalized entity ID, [GetInputPeer] probes the user index,
    then the chat index, then the channel index, and answers with the first
    hit: a user reference with the stored access hash, a chat reference
    (which has no access-hash field), or a channel reference with the stored
    access hash; when no index holds the ID it fails with the
    "there is no peer" error. *)
Theorem GetInputPeer_probe_order (c : CACHE) (id : Z) :
  normalized id →
  (∀ h, InputUsers (InputPeers c) !! id = Some h →
        GetInputPeer c id = Ok (InputPeerUser id h)) ∧
  (InputUsers (InputPeers c) !! id = None →
   ∀ x, InputChats (InputPeers c) !! id = Some x →
        GetInputPeer c id = Ok (InputPeerChat id)) ∧
  (InputUsers (InputPeers c) !! id = None →
   InputChats (InputPeers c) !! id = None →
   ∀ h, InputChannels (InputPeers c) !! id = Some h →
        GetInputPeer c id = Ok (InputPeerChannel id h)) ∧
  (InputUsers (InputPeers c) !! id = None →
   InputChats (InputPeers c) !! id = None →
   InputChannels (InputPeers c) !! id = None →
   GetInputPeer c id =
     Err (Errorf_d "there is no peer with id " id " or missing from cache")).
Proof.
  intros Hn.
  rewrite (GetInputPeer_probe c id id (normalize_normalized id Hn)).
  unfold probe. repeat split.
  - by intros h ->.
  - by intros -> x ->.
  - by intros -> -> h ->.
  - by intros -> -> ->.
Qed.

Lemma GetInputPeer_probe_order_witness :
  normalized 7 ∧ GetInputPeer samples.cache1 7 = Ok (InputPeerChat 7).
Proof.
  split; [reflexivity |].
  refine (proj1 (proj2 (GetInputPeer_probe_order samples.cache1 7 _)) _ 7 _);
    reflexivity.
Defined.

(** C5. When the decimal text of [encoded] is ["-100"] followed by the
    digits of the canonical ID (with or without zeros in front of them),
    [GetInputPeer] answers for [encoded] exactly what it answers for the bare
    ID, and the reference it returns carries the bare ID: the user reference
    with the stored access hash when the user index holds the ID, else the
    chat reference when the chat index holds it, else the channel reference
    with the stored access hash when the channel index holds it. *)
Theorem GetInputPeer_offset_encoded (c : CACHE) (id encoded : Z) :
  0 ≤ id → is_int64 id → offset_encoded id encoded →
  GetInputPeer c encoded = GetInputPeer c id ∧
  (∀ h, InputUsers (InputPeers c) !! id = Some h →
        GetInputPeer c encoded = Ok (InputPeerUser id h)) ∧
  (InputUsers (InputPeers c) !! id = None →
   ∀ x, InputChats (InputPeers c) !! id = Some x →
        GetInputPeer c encoded = Ok (InputPeerChat id)) ∧
  (InputUsers (InputPeers c) !! id = None →
   InputChats (InputPeers c) !! id = None →
   ∀ h, InputChannels (InputPeers c) !! id = Some h →
        GetInputPeer c encoded = Ok (InputPeerChannel id h)).
Proof.
  intros Hpos Hid Henc.
  rewrite (GetInputPeer_probe c encoded id (normalize_offset_encoded id encoded Hid Henc)).
  rewrite (GetInputPeer_probe c id id (normalize_normalized id (nonneg_normalized id Hpos))).
  unfold probe. split; [done |]. split; [| split].
  - by intros h ->.
  - by intros -> x ->.
  - by intros -> -> h ->.
Qed.

Lemma GetInputPeer_offset_encoded_witness :
  (0 ≤ 1234567890 ∧ is_int64 1234567890 ∧ offset_encoded 1234567890 (-1001234567890)) ∧
  GetInputPeer samples.cache1 (-1001234567890) = GetInputPeer samples.cache1 1234567890 ∧
  GetInputPeer samples.cache1 (-1001234567890) = Ok (InputPeerChannel 1234567890 77).
Proof.
  assert (H0 : 0 ≤ 1234567890) by lia.
  assert (H1 : is_int64 1234567890) by (unfold is_int64, MinInt64, MaxInt64; lia).
  assert (H2 : offset_encoded 1234567890 (-1001234567890)).
  { exists "1234567890". by repeat split. }
  destruct (GetInputPeer_offset_encoded samples.cache1 _ _ H0 H1 H2)
    as (Hsame & _ & _ & Hchannel).
  exact (conj (conj H0 (conj H1 H2)) (conj Hsame (Hchannel eq_refl eq_refl 77 eq_refl))).
Defined.

(** C8, as the code has it. After [UpdateUser], [GetUser] with the user's
    ID returns that record and issues no request.  [GetInputPeer] with that
    ID returns a user reference carrying the access hash of the record when
    the decimal text of the ID does not start with ["-100"].  When it does,
    another ID is looked up, and [GetInputPeer] answers for the user's ID
    what it answered before the [UpdateUser]. *)
Theorem UpdateUser_then_lookup `{Server} (c : CACHE) (user : UserObj.t) :
  records_by_id c →
  GetUser (UpdateUser c user) (UserObj.ID user) = ([], Ok user) ∧
  (normalized (UserObj.ID user) →
   GetInputPeer (UpdateUser c user) (UserObj.ID user)
   = Ok (InputPeerUser (UserObj.ID user) (UserObj.AccessHash user))) ∧
  (∀ n, normalize (UserObj.ID user) = Ok n → n ≠ UserObj.ID user →
        GetInputPeer (UpdateUser c user) (UserObj.ID user)
        = GetInputPeer c (UserObj.ID user)).
Proof.
  intros Hwf. split; [| split].
  - unfold GetUser, getUserFromCache.
    rewrite (range_find_record UserObj.ID (users (UpdateUser c user)) _ (UserObj.ID user)).
    + cbn. by rewrite lookup_insert_eq.
    + intros k v. apply elem_of_map_to_list.
    + apply (records_by_id_UpdateUser c user Hwf).
  - intros Hn. rewrite (GetInputPeer_probe _ _ _ (normalize_normalized _ Hn)).
    unfold probe. cbn. by rewrite lookup_insert_eq.
  - intros n Hn Hne. rewrite !(GetInputPeer_probe _ _ n Hn).
    unfold probe. cbn. by rewrite lookup_insert_ne.
Qed.

Lemma UpdateUser_then_lookup_witness :
  (records_by_id NewCache ∧ normalized (UserObj.ID samples.alice)) ∧
  @GetUser samples.offline (UpdateUser NewCache samples.alice) 42 = ([], Ok samples.alice) ∧
  GetInputPeer (UpdateUser NewCache samples.alice) 42 = Ok (InputPeerUser 42 9001).
Proof.
  assert (H1 : normalized (UserObj.ID samples.alice)) by reflexivity.
  destruct (@UpdateUser_then_lookup samples.offline NewCache samples.alice
              records_by_id_NewCache) as (Hget & Hpeer & _).
  exact (conj (conj records_by_id_NewCache H1) (conj Hget (Hpeer H1))).
Defined.

(** C8 as stated fails for a user whose ID reads ["-100"] and then digits:
    [UpdateUser] files the handle under -1005, [GetInputPeer] looks up 5
    instead and finds nothing, or the handle of the user with ID 5. *)
Lemma UpdateUser_prefixed_id_missed :
  InputUsers (InputPeers (UpdateUser NewCache samples_more.bob)) !! (-1005) = Some 11 ∧
  GetInputPeer (UpdateUser NewCache samples_more.bob) (UserObj.ID samples_more.bob)
    = Err "there is no peer with id 5 or missing from cache" ∧
  GetInputPeer (UpdateUser (UpdateUser NewCache samples_more.carol) samples_more.bob)
    (UserObj.ID samples_more.bob)
    = Ok (InputPeerUser 5 22).
Proof. repeat split. Qed.

(** C4, as the code has it. For an ID with no cached user record and no
    entry in the user index, [GetUser] fails with the "no user ... or missing
    from cache" error and issues no request, whatever the other maps hold;
    [GetChannel] does the same with the channel records and the channel
    index.  [GetChat] never consults the chat index: for an ID with no
    cached chat record it issues one [MessagesGetChats] request for it and
    reads its result from the reply. *)
Theorem lookup_miss `{Server} (c : CACHE) (id : Z) :
  ((∀ k u, users c !! k = Some u → UserObj.ID u ≠ id) →
   InputUsers (InputPeers c) !! id = None →
   GetUser c id
   = ([], Err (Errorf_d "no user with id " id " or missing from cache"))) ∧
  ((∀ k ch, channels c !! k = Some ch → Channel.ID ch ≠ id) →
   InputChannels (InputPeers c) !! id = None →
   GetChannel c id
   = ([], Err (Errorf_d "no channel with id " id " or missing from cache"))) ∧
  ((∀ k ch, chats c !! k = Some ch → ChatObj.ID ch ≠ id) →
   GetChat c id
   = ([FetchMessagesGetChats [id]],
      match MessagesGetChats [id] with
      | Ok (MessagesChatsObj (Chat_ChatObj chat :: _)) => Ok chat
      | Ok _ => Err (Errorf_d "no chat with id " id " or missing from cache")
      | Err err => Err err
      end)).
Proof.
  split; [| split].
  - intros Hu Hiu. unfold GetUser, getUserFromCache, getUserPeer.
    rewrite (range_find_no_record UserObj.ID (users c) id Hu).
    by rewrite range_find_key, Hiu.
  - intros Hch Hich. unfold GetChannel, getChannelFromCache, getChannelPeer.
    rewrite (range_find_no_record Channel.ID (channels c) id Hch).
    by rewrite range_find_key, Hich.
  - intros Hc. unfold GetChat, getChatFromCache.
    rewrite (range_find_no_record ChatObj.ID (chats c) id Hc). cbn.
    by destruct (MessagesGetChats [id]) as [[[| [? | ? | ?] ?] | ? ?] | ?].
Qed.

Lemma no_record_empty {V} (ID : V → Z) (id : Z) :
  ∀ k v, (∅ : gmap Z V) !! k = Some v → ID v ≠ id.
Proof. intros k v Hk. by rewrite lookup_empty in Hk. Qed.

Lemma cache1_user_ids k u : users samples.cache1 !! k = Some u → UserObj.ID u = 42.
Proof.
  change (users samples.cache1) with (<[42 := samples.alice]> (∅ : gmap Z UserObj.t)).
  intros [[_ <-] | [_ Hk]]%lookup_insert_Some; [done | by rewrite lookup_empty in Hk].
Qed.

Lemma cache1_channel_ids k ch :
  channels samples.cache1 !! k = Some ch → Channel.ID ch = 1234567890.
Proof.
  change (channels samples.cache1)
    with (<[1234567890 := samples.news]> (∅ : gmap Z Channel.t)).
  intros [[_ <-] | [_ Hk]]%lookup_insert_Some; [done | by rewrite lookup_empty in Hk].
Qed.

Lemma cache1_chat_ids k ch : chats samples.cache1 !! k = Some ch → ChatObj.ID ch = 7.
Proof.
  change (chats samples.cache1) with (<[7 := samples.family]> (∅ : gmap Z ChatObj.t)).
  intros [[_ <-] | [_ Hk]]%lookup_insert_Some; [done | by rewrite lookup_empty in Hk].
Qed.

Lemma lookup_miss_witness :
  InputChannels (InputPeers samples.cache1) !! 1234567890 = Some 77 ∧
  @GetUser samples.offline samples.cache1 1234567890
    = ([], Err "no user with id 1234567890 or missing from cache") ∧
  InputUsers (InputPeers samples.cache1) !! 42 = Some 9001 ∧
  @GetChannel samples.offline samples.cache1 42
    = ([], Err "no channel with id 42 or missing from cache") ∧
  @GetChat samples.offline samples.cache1 42
    = ([FetchMessagesGetChats [42]], Err "transport is nil, please use SetTransport").
Proof.
  destruct (@lookup_miss samples.offline samples.cache1 1234567890) as (Hu & _ & _).
  destruct (@lookup_miss samples.offline samples.cache1 42) as (_ & Hch & Hc).
  refine (conj eq_refl (conj (Hu _ eq_refl) (conj eq_refl (conj (Hch _ eq_refl) (Hc _))))).
  - intros k u Hk. by rewrite (cache1_user_ids k u Hk).
  - intros k ch Hk. by rewrite (cache1_channel_ids k ch Hk).
  - intros k ch Hk. by rewrite (cache1_chat_ids k ch Hk).
Defined.

(** C4 as stated fails for chats: on the empty cache, where chat 5 has
    neither a record nor an index entry, [GetChat] sends a request. *)
Lemma GetChat_miss_fetches :
  chats NewCache !! 5 = None ∧
  InputChats (InputPeers NewCache) !! 5 = None ∧
  @GetChat samples.offline NewCache 5
    = ([FetchMessagesGetChats [5]], Err "transport is nil, please use SetTransport").
Proof. repeat split. Qed.

End cache_claims.

(** ** Export and import of the peer-handle index *)

Section json_facts.
Import telegram.

Lemma unmarshal_entries (l : list (Z * Z)) (m0 : gmap Z Z) (e : option error) :
  (∀ kv, kv ∈ l → is_int64 kv.1 ∧ is_int64 kv.2) →
  foldl json.unmarshal_entry (m0, e) (json.marshal_entry <$> l)
  = (foldl (λ a kv, <[kv.1 := kv.2]> a) m0 l, e).
Proof.
  revert m0. induction l as [| [k v] l IH]; intros m0 Hl; [done |].
  destruct (Hl (k, v)) as [Hk Hv]; [left |]. cbn in Hk, Hv.
  cbn [fmap list_fmap foldl]. rewrite <- IH.
  - f_equal. unfold json.unmarshal_entry, json.marshal_entry, json.unmarshal_int64. cbn.
    by rewrite (in_int64_true v Hv), (Atoi_Itoa k Hk).
  - intros kv Hkv. apply Hl. by right.
Qed.

Lemma foldl_insert_union (l : list (Z * Z)) (m0 : gmap Z Z) :
  NoDup l.*1 →
  foldl (λ a kv, <[kv.1 := kv.2]> a) m0 l = list_to_map l ∪ m0.
Proof.
  revert m0. induction l as [| [k v] l IH]; intros m0 Hnd; cbn.
  - by rewrite (left_id_L ∅ (∪)).
  - apply NoDup_cons in Hnd as [Hk Hnd]. rewrite IH by done.
    rewrite <- insert_union_l. rewrite insert_union_r; [done |].
    by apply not_elem_of_list_to_map.
Qed.

(** Decoding the encoding of a map into a map that is already there adds
    its entries over the old ones. *)
Lemma unmarshal_marshal_map (m m0 : gmap Z Z) (e : option error) :
  json.int64_map m →
  json.unmarshal_map (m0, e) (json.marshal_map m) = (m ∪ m0, e).
Proof.
  intros Hm. unfold json.unmarshal_map, json.marshal_map.
  pose proof (merge_sort_Permutation json.key_le (json.marshal_entry <$> map_to_list m))
    as Hperm.
  apply Permutation_map_inv in Hperm as (l & Hl & Hlm).
  change (map json.marshal_entry l) with (json.marshal_entry <$> l) in Hl.
  rewrite Hl. rewrite unmarshal_entries.
  - f_equal. rewrite foldl_insert_union.
    + f_equal. rewrite <- (list_to_map_to_list m).
      apply list_to_map_proper; [| by symmetry].
      rewrite <- Hlm. apply NoDup_fst_map_to_list.
    + rewrite <- Hlm. apply NoDup_fst_map_to_list.
  - intros [k v] Hkv. rewrite <- Hlm in Hkv.
    apply elem_of_map_to_list in Hkv. exact (Hm k v Hkv).
Qed.

Lemma unmarshal_marshal_fresh (m : gmap Z Z) (e : option error) :
  json.int64_map m → json.unmarshal_map (∅, e) (json.marshal_map m) = (m, e).
Proof. intros Hm. by rewrite unmarshal_marshal_map, (right_id_L ∅ (∪)). Qed.

End json_facts.

Section json_claims.
Import telegram.

Ltac decode_field :=
  cbn [foldl unmarshal_field InputChannels InputUsers InputChats];
  repeat match goal with
    | |- context [json.name_matches ?a ?b] =>
        let r := eval vm_compute in (json.name_matches a b) in
        change (json.name_matches a b) with r; cbv iota
    end;
  rewrite ?unmarshal_marshal_fresh by assumption.

(** C9. Exporting the peer-handle index and importing the document into a
    cache whose index has been cleared gives back the three index maps
    exactly, with no error; neither operation takes the journal file as an
    input or writes it. *)
Theorem Export_Import_roundtrip (c cleared : CACHE) :
  int64_index (InputPeers c) →
  InputPeers cleared = mkInputPeerCache ∅ ∅ ∅ →
  ∃ data, ExportJSON c = Ok data ∧
          ImportJSON cleared data
          = (mkCACHE (chats cleared) (users cleared) (channels cleared) (InputPeers c),
             None).
Proof.
  intros (Hch & Hus & Hcs) Hcl. eexists. split; [reflexivity |].
  unfold ImportJSON, unmarshal_InputPeerCache, marshal_InputPeerCache. rewrite Hcl.
  destruct (InputPeers c) as [ch us cs].
  cbn [InputChannels InputUsers InputChats] in *.
  unfold json.omitempty.
  repeat case_bool_decide; subst; cbn [app]; repeat decode_field; reflexivity.
Qed.

End json_claims.

(** ** Dispatcher and inbound router *)

Section dispatcher_facts.
Import gogram.
Context `{Externals}.

Lemma wrap32_id (z : Z) : is_int32 z → wrap32 z = z.
Proof.
  unfold is_int32, wrap32. intros Hz.
  rewrite Z.mod_small by lia. lia.
Qed.

Lemma wrap32_range (z : Z) : is_int32 (wrap32 z).
Proof.
  unfold is_int32, wrap32.
  pose proof (Z.mod_pos_bound (z + 2 ^ 31) (2 ^ 32) ltac:(lia)). lia.
Qed.

Lemma wrap32_add (x d : Z) : wrap32 (wrap32 x + d) = wrap32 (x + d).
Proof.
  unfold wrap32.
  replace ((x + 2 ^ 31) mod 2 ^ 32 - 2 ^ 31 + d + 2 ^ 31)
    with ((x + 2 ^ 31) mod 2 ^ 32 + d) by lia.
  rewrite Zplus_mod_idemp_l. do 2 f_equal. lia.
Qed.

(** At the top of [int32] the counter wraps to the bottom. *)
Example wrap32_overflow : wrap32 (2147483646 + 2) = -2147483648.
Proof. reflexivity. Qed.

(** A request the codec refuses changes nothing. *)
Lemma sendPacket_marshal_error now request expected w err :
  Marshal request = Err err →
  sendPacket now request expected w = (w, Err ("marshaling request: " +:+ err)).
Proof. intros HM. unfold sendPacket. by rewrite HM. Qed.

(** [sendPacket] on a request the codec accepts, in closed form. *)
Lemma sendPacket_marshalled now request expected w msg :
  Marshal request = Ok msg →
  let m := session w in
  let msgID := GenerateMessageId now (lastMessageID m) in
  let resp := if serviceModeActivated m then serviceChannel m else length (chans w) in
  let slots := if serviceModeActivated m then chans w else (chans w ++ [[]])%list in
  let data := if encrypted m then Encrypted msg msgID (authKeyHash m)
              else Unencrypted msg msgID in
  let seq := wrap32 (seqNo m + 2) in
  let m' :=
    mkMTProto msgID seq (encrypted m) (authKeyHash m) (serviceModeActivated m)
      (serviceChannel m)
      (if isNullableResponse request then responseChannels m
       else <[msgID := resp]> (responseChannels m))
      (if (0 <? List.length expected)%nat then <[msgID := expected]> (expectedTypes m)
       else expectedTypes m)
      (transport m) in
  let slots' := if isNullableResponse request
                then alter (λ q, (q ++ [Null])%list) resp slots else slots in
  sendPacket now request expected w =
    match transport m with
    | None => (mkWorld m' slots' (wire w), Err "transport is nil, please use SetTransport")
    | Some t =>
        let frame := (data, MessageRequireToAck request, if encrypted m then seq else 0) in
        (mkWorld m' slots' (wire w ++ [frame])%list,
         match WriteMsg t data (MessageRequireToAck request)
                 (if encrypted m then seq else 0) with
         | Some e => Err ("writing message: " +:+ e)
         | None => Ok resp
         end)
    end.
Proof.
  intros HM. destruct w as [m ch wr]. destruct m; cbn.
  unfold sendPacket. rewrite HM.
  unfold bind, this, update, getRespChannel, UpdateSeqNo, make_chan, chan_send,
    write_msg, ret, fail, bind, this; cbn.
  repeat match goal with
         | |- context [if ?b then _ else _] => destruct b eqn:?; cbn
         | |- context [match ?t with Some _ => _ | None => _ end] => destruct t eqn:?; cbn
         end; reflexivity.
Qed.

End dispatcher_facts.

Section dispatcher_runs.
Import gogram.
Context `{Externals}.

Lemma sendPackets_app (l1 l2 : list Call) (w : World) :
  sendPackets (l1 ++ l2) w =
    ((sendPackets l2 (sendPackets l1 w).1).1,
     ((sendPackets l1 w).2 ++ (sendPackets l2 (sendPackets l1 w).1).2)%list).
Proof.
  revert w. induction l1 as [| c l1 IH]; intros w; cbn.
  - by destruct (sendPackets l2 w).
  - destruct (sendPacket _ _ _ w) as [w1 r]. rewrite IH.
    by destruct (sendPackets l1 w1) as [w2 rs]; cbn.
Qed.

Lemma sendPackets_one (c : Call) (w : World) :
  (sendPackets [c] w).1 = (sendPacket (call_now c) (call_request c) (call_expected c) w).1.
Proof. cbn. by destruct (sendPacket _ _ _ w). Qed.

(** The mode flag and the transport are not touched by [sendPacket]. *)
Lemma sendPacket_mode now request expected w :
  encrypted (session (sendPacket now request expected w).1) = encrypted (session w) ∧
  transport (session (sendPacket now request expected w).1) = transport (session w).
Proof.
  destruct (Marshal request) as [msg | err] eqn:HM.
  - rewrite (sendPacket_marshalled _ _ _ _ msg HM).
    by destruct (transport (session w)).
  - by rewrite (sendPacket_marshal_error _ _ _ _ err HM).
Qed.

Lemma sendPackets_mode calls w :
  encrypted (session (sendPackets calls w).1) = encrypted (session w) ∧
  transport (session (sendPackets calls w).1) = transport (session w).
Proof.
  revert w. induction calls as [| c calls IH]; intros w; [done |]. cbn.
  pose proof (sendPacket_mode (call_now c) (call_request c) (call_expected c) w) as [He Ht].
  destruct (sendPacket _ _ _ w) as [w1 r]. cbn in He, Ht.
  destruct (IH w1) as [He1 Ht1].
  destruct (sendPackets calls w1) as [w2 rs]. cbn in *. split; congruence.
Qed.

Lemma sendPacket_seqNo now request expected w msg :
  Marshal request = Ok msg →
  seqNo (session (sendPacket now request expected w).1) = wrap32 (seqNo (session w) + 2).
Proof.
  intros HM. rewrite (sendPacket_marshalled _ _ _ _ msg HM).
  by destruct (transport (session w)).
Qed.

Lemma sendPacket_lastMessageID now request expected w msg :
  Marshal request = Ok msg →
  lastMessageID (session (sendPacket now request expected w).1)
  = GenerateMessageId now (lastMessageID (session w)).
Proof.
  intros HM. rewrite (sendPacket_marshalled _ _ _ _ msg HM).
  by destruct (transport (session w)).
Qed.

(** The counter after a run of requests the codec accepts, as long as it
    stays within [int32]. *)
Lemma sendPackets_seqNo calls w :
  Forall (λ c, ∃ msg, Marshal (call_request c) = Ok msg) calls →
  is_int32 (seqNo (session w)) →
  seqNo (session w) + 2 * Z.of_nat (length calls) ≤ 2 ^ 31 - 1 →
  seqNo (session (sendPackets calls w).1)
  = seqNo (session w) + 2 * Z.of_nat (length calls).
Proof.
  revert w. induction calls as [| c calls IH]; intros w Hok Hs Hmax.
  - cbn. lia.
  - apply Forall_cons in Hok as [[msg HM] Hok]. cbn [sendPackets].
    pose proof (sendPacket_seqNo (call_now c) _ (call_expected c) w msg HM) as Hseq.
    destruct (sendPacket _ _ _ w) as [w1 r]. cbn in Hseq.
    rewrite wrap32_id in Hseq by (unfold is_int32 in *; cbn [length] in Hmax; lia).
    specialize (IH w1 Hok).
    destruct (sendPackets calls w1) as [w2 rs]. cbn in *.
    rewrite IH; unfold is_int32 in *; lia.
Qed.

(** The counter after any run of accepted requests, wrap-around included. *)
Lemma sendPackets_seqNo_wrap calls w :
  Forall (λ c, ∃ msg, Marshal (call_request c) = Ok msg) calls →
  is_int32 (seqNo (session w)) →
  seqNo (session (sendPackets calls w).1)
  = wrap32 (seqNo (session w) + 2 * Z.of_nat (length calls)).
Proof.
  revert w. induction calls as [| c calls IH]; intros w Hok Hs.
  - cbn. rewrite Z.add_0_r. by rewrite wrap32_id.
  - apply Forall_cons in Hok as [[msg HM] Hok]. cbn [sendPackets].
    pose proof (sendPacket_seqNo (call_now c) _ (call_expected c) w msg HM) as Hseq.
    destruct (sendPacket _ _ _ w) as [w1 r]. cbn in Hseq.
    specialize (IH w1 Hok).
    destruct (sendPackets calls w1) as [w2 rs]. cbn [fst] in *.
    rewrite IH, Hseq by (rewrite Hseq; apply wrap32_range).
    rewrite wrap32_add. f_equal. cbn [length]. lia.
Qed.

(** What one accepted request adds to the frames handed to the transport. *)
Lemma sendPacket_wire now request expected w msg t :
  Marshal request = Ok msg → transport (session w) = Some t →
  ∃ data ack,
    wire (sendPacket now request expected w).1 =
      (wire w ++ [(data, ack,
                   if encrypted (session w) then wrap32 (seqNo (session w) + 2) else 0)])%list.
Proof.
  intros HM Ht. rewrite (sendPacket_marshalled _ _ _ _ msg HM), Ht. cbn. eauto.
Qed.

End dispatcher_runs.

Section dispatcher_claims.
Import gogram.
Context `{Externals}.

Lemma sendPackets_wire calls w t :
  Forall (λ c, ∃ msg, Marshal (call_request c) = Ok msg) calls →
  is_int32 (seqNo (session w)) →
  seqNo (session w) + 2 * Z.of_nat (length calls) ≤ 2 ^ 31 - 1 →
  transport (session w) = Some t →
  (λ f : Frame, f.2) <$> wire (sendPackets calls w).1 =
    (((λ f : Frame, f.2) <$> wire w) ++
     ((λ k, if encrypted (session w) then seqNo (session w) + 2 * k else 0)
        <$> seqZ 1 (Z.of_nat (length calls))))%list.
Proof.
  induction calls as [| c pre IH] using rev_ind; intros Hok Hs Hmax Ht.
  - cbn. by rewrite app_nil_r.
  - apply Forall_app in Hok as [Hpre Hc].
    apply Forall_singleton in Hc as [msg HM].
    rewrite length_app in Hmax |- *. cbn [length] in Hmax |- *.
    rewrite sendPackets_app. cbn [fst]. rewrite sendPackets_one.
    destruct (sendPackets_mode pre w) as [He Htr].
    assert (Hmax' : seqNo (session w) + 2 * Z.of_nat (length pre) ≤ 2 ^ 31 - 1).
    { lia. }
    pose proof (sendPackets_seqNo pre w Hpre Hs Hmax') as Hseq.
    destruct (sendPacket_wire (call_now c) _ (call_expected c) _ msg t HM
                (eq_trans Htr Ht)) as (data & ack & Hw).
    rewrite Hw, fmap_app, IH by (done || lia). cbn [fmap list_fmap snd].
    rewrite He, Hseq.
    rewrite wrap32_id by (unfold is_int32 in *; lia).
    replace (Z.of_nat (length pre + 1)) with (Z.of_nat (S (length pre))) by lia.
    rewrite seqZ_S, fmap_app, app_assoc. cbn [fmap list_fmap].
    do 2 f_equal. destruct (encrypted (session w)); [lia | done].
Qed.

(** C1, as the code has it. Every [sendPacket] whose request the codec
    accepts adds 2 to the counter, whether or not the request asks for an
    acknowledgment and whether or not the session is encrypted.  So in a run
    of N such calls from counter s0, with s0 + 2N within [int32], the
    counter stands at s0 + 2k after the k-th call.  On an encrypted session
    the sequence numbers handed to the transport are s0 + 2, ..., s0 + 2N;
    on a plaintext session each one handed over is 0. *)
Theorem seqNo_assignment (calls : list Call) (w : World) (t : Transport) :
  Forall (λ c, ∃ msg, Marshal (call_request c) = Ok msg) calls →
  is_int32 (seqNo (session w)) →
  seqNo (session w) + 2 * Z.of_nat (length calls) ≤ 2 ^ 31 - 1 →
  transport (session w) = Some t →
  (∀ k : nat, (k ≤ length calls)%nat →
     seqNo (session (sendPackets (take k calls) w).1) = seqNo (session w) + 2 * Z.of_nat k) ∧
  (λ f : Frame, f.2) <$> wire (sendPackets calls w).1 =
    (((λ f : Frame, f.2) <$> wire w) ++
     ((λ k, if encrypted (session w) then seqNo (session w) + 2 * k else 0)
        <$> seqZ 1 (Z.of_nat (length calls))))%list.
Proof.
  intros Hok Hs Hmax Ht. split; [| by eapply sendPackets_wire].
  intros k Hk.
  rewrite sendPackets_seqNo; rewrite ?length_take; try done.
  - f_equal. lia.
  - by apply Forall_take.
  - lia.
Qed.

(** C2. Every [sendPacket] that gets to generate a message ID leaves in
    [lastMessageID] an ID greater than the one it found there, and a call
    that stops at the codec leaves [lastMessageID] as it was; this holds at
    every position of every run of calls on one session. *)
Theorem lastMessageID_increasing (pre post : list Call) (c : Call) (w : World) :
  GenerateMessageId_increasing →
  let before := lastMessageID (session (sendPackets pre w).1) in
  let after := lastMessageID (session (sendPackets (pre ++ [c]) w).1) in
  (∀ msg, Marshal (call_request c) = Ok msg → before < after) ∧
  (∀ err, Marshal (call_request c) = Err err → after = before) ∧
  before ≤ lastMessageID (session (sendPackets (pre ++ c :: post) w).1).
Proof.
  intros Hgen. cbn zeta.
  assert (Hstep : ∀ c' w', lastMessageID (session w') ≤
            lastMessageID (session (sendPacket (call_now c') (call_request c')
                                      (call_expected c') w').1)).
  { intros c' w'. destruct (Marshal (call_request c')) as [msg | err] eqn:HM.
    - rewrite (sendPacket_lastMessageID _ _ _ _ msg HM).
      pose proof (Hgen (call_now c') (lastMessageID (session w'))). lia.
    - by rewrite (sendPacket_marshal_error _ _ _ _ err HM). }
  assert (Hrun : ∀ l w', lastMessageID (session w') ≤
            lastMessageID (session (sendPackets l w').1)).
  { induction l as [| c' l IH]; intros w'; [done |]. cbn.
    pose proof (Hstep c' w') as H1.
    destruct (sendPacket _ _ _ w') as [w1 r]. specialize (IH w1).
    destruct (sendPackets l w1) as [w2 rs]. cbn in *. lia. }
  rewrite !sendPackets_app. cbn [fst]. rewrite sendPackets_one. repeat split.
  - intros msg HM. rewrite (sendPacket_lastMessageID _ _ _ _ msg HM). apply Hgen.
  - intros err HM. by rewrite (sendPacket_marshal_error _ _ _ _ err HM).
  - apply Hrun.
Qed.

End dispatcher_claims.

Section router_claims.
Import gogram.

(** C3. Delivering to a message ID that has a reply slot offers the
    value on that slot and removes the slot and the type hints filed under
    the ID, leaving every other entry alone, so that a second delivery to
    the same ID fails with the "no response channel" error; delivering to an
    ID without a reply slot fails with that error and changes nothing. *)
Theorem writeRPCResponse_delivery (w : World) (msgID : Z) (data again : Object) :
  (∀ v q, responseChannels (session w) !! msgID = Some v → chans w !! v = Some q →
     ∃ w', writeRPCResponse msgID data w = (w', Ok tt) ∧
           chans w' !! v = Some (q ++ [data])%list ∧
           responseChannels (session w') = delete msgID (responseChannels (session w)) ∧
           expectedTypes (session w') = delete msgID (expectedTypes (session w)) ∧
           writeRPCResponse msgID again w' = (w', Err (UnknownMessageId msgID))) ∧
  (responseChannels (session w) !! msgID = None →
     writeRPCResponse msgID data w = (w, Err (UnknownMessageId msgID))).
Proof.
  split.
  - intros v q Hv Hq. destruct w as [m ch wr]. cbn [session chans] in Hv, Hq.
    unfold writeRPCResponse at 1.
    unfold bind, this, update, chan_send, ret, fail; cbn. rewrite Hv. cbn.
    eexists. split; [reflexivity |]. cbn [session chans responseChannels expectedTypes
      set_responseChannels set_expectedTypes]. repeat split.
    + by rewrite list_lookup_alter_eq, Hq.
    + unfold writeRPCResponse, bind, this, fail; cbn.
      by rewrite lookup_delete_eq.
  - intros Hnone. destruct w as [m ch wr]. cbn in Hnone.
    unfold writeRPCResponse, bind, this, fail; cbn. by rewrite Hnone.
Qed.

End router_claims.

Section slot_claims.
Import gogram.
Context `{Externals}.

(** C6, as the code has it. For a request the codec accepts: if it is a
    [Pong] or a [MsgsAck], [sendPacket] offers a [Null] on the reply handle
    and files no reply slot; for any other kind it files the reply handle as
    the reply slot under the new message ID.  In both cases the type hints,
    when some were passed, are filed under the new message ID.  The reply
    handle is the shared service channel in service mode and a new channel
    otherwise. *)
Theorem sendPacket_reply_slot now request expected (w : World) msg :
  Marshal request = Ok msg →
  let m := session w in
  let msgID := GenerateMessageId now (lastMessageID m) in
  let resp := if serviceModeActivated m then serviceChannel m else length (chans w) in
  let slots := if serviceModeActivated m then chans w else (chans w ++ [[]])%list in
  let w' := (sendPacket now request expected w).1 in
  (∀ r, (sendPacket now request expected w).2 = Ok r → r = resp) ∧
  (isNullableResponse request = true →
     responseChannels (session w') = responseChannels m ∧
     chans w' = alter (λ q, (q ++ [Null])%list) resp slots) ∧
  (isNullableResponse request = false →
     responseChannels (session w') = <[msgID := resp]> (responseChannels m) ∧
     chans w' = slots) ∧
  expectedTypes (session w') =
    (if (0 <? List.length expected)%nat then <[msgID := expected]> (expectedTypes m)
     else expectedTypes m).
Proof.
  intros HM. cbn zeta. rewrite (sendPacket_marshalled _ _ _ _ msg HM). cbn zeta.
  destruct (transport (session w)) as [t |]; cbn [fst snd session chans responseChannels
    expectedTypes].
  - split; [| split; [| split]]; [| by intros -> | by intros -> | done].
    intros r. destruct (WriteMsg t _ _ _); [done | by intros [= <-]].
  - split; [| split; [| split]]; [done | by intros -> | by intros -> | done].
Qed.

(** C10, as the code has it. A request the codec accepts, sent on a
    session without a transport, comes back with the "transport is nil"
    error, and by then the session has changed for good: [lastMessageID]
    holds the new message ID, the counter has gone up by 2, a reply slot is
    filed under the new ID unless the request is a [Pong] or [MsgsAck], the
    type hints are filed under it when some were passed, and nothing has
    been handed to a transport. *)
Theorem sendPacket_not_connected now request expected (w : World) msg :
  Marshal request = Ok msg →
  transport (session w) = None →
  let m := session w in
  let msgID := GenerateMessageId now (lastMessageID m) in
  let resp := if serviceModeActivated m then serviceChannel m else length (chans w) in
  let w' := (sendPacket now request expected w).1 in
  (sendPacket now request expected w).2 = Err "transport is nil, please use SetTransport" ∧
  lastMessageID (session w') = msgID ∧
  (GenerateMessageId_increasing → lastMessageID m < lastMessageID (session w')) ∧
  seqNo (session w') = wrap32 (seqNo m + 2) ∧
  (isNullableResponse request = false →
     responseChannels (session w') !! msgID = Some resp) ∧
  (expected ≠ [] → expectedTypes (session w') !! msgID = Some expected) ∧
  wire w' = wire w.
Proof.
  intros HM Ht. cbn zeta. rewrite (sendPacket_marshalled _ _ _ _ msg HM), Ht.
  cbn [fst snd session lastMessageID seqNo responseChannels expectedTypes wire].
  split; [done |]. split; [done |]. split; [intros Hgen; apply Hgen |].
  split; [done |]. split; [| split; [| done]].
  - intros ->. by rewrite lookup_insert_eq.
  - intros Hne. destruct expected; [done |]. cbn. by rewrite lookup_insert_eq.
Qed.

End slot_claims.

(** ** Worked instances *)

Section dispatcher_instances.
Import gogram samples.

Lemma ext_increasing : @GenerateMessageId_increasing ext.
Proof.
  intros now prev. cbn. destruct (Z.leb_spec now prev); lia.
Qed.

Lemma three_pings_marshal :
  Forall (λ c, ∃ msg, @Marshal ext (call_request c) = Ok msg) three_pings.
Proof. repeat constructor; eexists; reflexivity. Qed.

Lemma seqNo_assignment_witness :
  (is_int32 0 ∧ 0 + 2 * 3 ≤ 2 ^ 31 - 1) ∧
  seqNo (session (@sendPackets ext three_pings (session0 true (Some tcp))).1) = 6 ∧
  (λ f : Frame, f.2) <$> wire (@sendPackets ext three_pings (session0 true (Some tcp))).1
    = [2; 4; 6].
Proof.
  assert (H1 : is_int32 0) by (unfold is_int32; lia).
  assert (H2 : 0 + 2 * 3 ≤ 2 ^ 31 - 1) by lia.
  pose proof (@seqNo_assignment ext three_pings (session0 true (Some tcp)) tcp
                three_pings_marshal H1 H2 eq_refl) as [Hk Hw].
  exact (conj (conj H1 H2) (conj (Hk 3%nat (le_n 3)) Hw)).
Defined.

(** C1 as stated fails on a plaintext session: the counter goes from 0
    to 2 while 0 is what the transport is handed. *)
Lemma plaintext_send_advances_counter :
  encrypted (session (session0 false (Some tcp))) = false ∧
  seqNo (session (session0 false (Some tcp))) = 0 ∧
  seqNo (session (@sendPacket ext 100 ping [] (session0 false (Some tcp))).1) = 2 ∧
  (λ f : Frame, f.2) <$> wire (@sendPacket ext 100 ping [] (session0 false (Some tcp))).1
    = [0].
Proof. repeat split. Qed.

Lemma lastMessageID_increasing_witness :
  @GenerateMessageId_increasing ext ∧
  lastMessageID (session (@sendPackets ext [mkCall 100 ping []; mkCall 200 ping []]
                            (session0 true (Some tcp))).1)
  < lastMessageID (session (@sendPackets ext
                              ([mkCall 100 ping []; mkCall 200 ping []]
                                 ++ [mkCall 150 ping []])
                              (session0 true (Some tcp))).1).
Proof.
  exact (conj ext_increasing
           (proj1 (@lastMessageID_increasing ext
                     [mkCall 100 ping []; mkCall 200 ping []] []
                     (mkCall 150 ping []) (session0 true (Some tcp)) ext_increasing)
                  [Byte.x01; Byte.x02] eq_refl)).
Defined.

Lemma writeRPCResponse_delivery_witness :
  ∃ w',
    writeRPCResponse 100 (Pong 1 2)
      (@sendPacket ext 100 ping ["Pong"] (session0 true (Some tcp))).1 = (w', Ok tt) ∧
    chans w' !! 0%nat = Some [Pong 1 2] ∧
    responseChannels (session w') = ∅ ∧
    expectedTypes (session w') = ∅ ∧
    writeRPCResponse 100 Null w' = (w', Err (UnknownMessageId 100)).
Proof.
  destruct (proj1 (writeRPCResponse_delivery
                     (@sendPacket ext 100 ping ["Pong"] (session0 true (Some tcp))).1
                     100 (Pong 1 2) Null) 0%nat [] eq_refl eq_refl)
    as (w' & H1 & H2 & H3 & H4 & H5).
  exists w'. repeat split; assumption.
Defined.

Lemma sendPacket_reply_slot_witness :
  @Marshal ext (Pong 1 2) = Ok [Byte.x00] ∧
  responseChannels (session (@sendPacket ext 100 (Pong 1 2) []
                               (session0 true (Some tcp))).1) = ∅ ∧
  chans (@sendPacket ext 100 (Pong 1 2) [] (session0 true (Some tcp))).1 = [[Null]].
Proof.
  exact (conj eq_refl
           (proj1 (proj2 (@sendPacket_reply_slot ext 100 (Pong 1 2) []
                            (session0 true (Some tcp)) [Byte.x00] eq_refl))
                  eq_refl)).
Defined.

(** C6 as stated fails when hints come with a [Pong]: no reply slot is
    filed, but the hints are, under the new message ID. *)
Lemma pong_hints_registered :
  isNullableResponse (Pong 1 2) = true ∧
  expectedTypes (session (session0 true (Some tcp))) !! 100 = None ∧
  @sendPacket ext 100 (Pong 1 2) ["Pong"] (session0 true (Some tcp))
    = ((@sendPacket ext 100 (Pong 1 2) ["Pong"] (session0 true (Some tcp))).1, Ok 0%nat) ∧
  lastMessageID (session (@sendPacket ext 100 (Pong 1 2) ["Pong"]
                            (session0 true (Some tcp))).1) = 100 ∧
  expectedTypes (session (@sendPacket ext 100 (Pong 1 2) ["Pong"]
                            (session0 true (Some tcp))).1) !! 100 = Some ["Pong"].
Proof. repeat split. Qed.

Lemma sendPacket_not_connected_witness :
  (@Marshal ext ping = Ok [Byte.x01; Byte.x02] ∧
   transport (session (session0 true None)) = None) ∧
  (@sendPacket ext 100 ping ["Pong"] (session0 true None)).2
    = Err "transport is nil, please use SetTransport" ∧
  lastMessageID (session (@sendPacket ext 100 ping ["Pong"] (session0 true None)).1) = 100 ∧
  seqNo (session (@sendPacket ext 100 ping ["Pong"] (session0 true None)).1) = 2 ∧
  responseChannels (session (@sendPacket ext 100 ping ["Pong"] (session0 true None)).1)
    !! 100 = Some 0%nat.
Proof.
  destruct (@sendPacket_not_connected ext 100 ping ["Pong"] (session0 true None)
              [Byte.x01; Byte.x02] eq_refl eq_refl)
    as (H1 & H2 & _ & H4 & H5 & _).
  exact (conj (conj eq_refl eq_refl) (conj H1 (conj H2 (conj H4 (H5 eq_refl))))).
Defined.

(** C10 as stated fails for a request the codec refuses: without a
    transport it comes back with the codec's error, not the "transport is
    nil" one, and the session is as it was. *)
Lemma refused_request_not_connected :
  transport (session (session0 true None)) = None ∧
  @sendPacket ext 100 unregistered [] (session0 true None)
    = (session0 true None, Err "marshaling request: object is not registered").
Proof. repeat split. Qed.

End dispatcher_instances.

Section json_instances.
Import telegram samples.

Lemma int64_map_empty : json.int64_map ∅.
Proof. intros k v Hk. by rewrite lookup_empty in Hk. Qed.

Lemma int64_map_insert (m : gmap Z Z) (k v : Z) :
  is_int64 k → is_int64 v → json.int64_map m → json.int64_map (<[k := v]> m).
Proof.
  intros Hk Hv Hm k' v'. rewrite lookup_insert.
  case_decide; [intros [= <-]; by subst | apply Hm].
Qed.

Lemma cache1_int64 : int64_index (InputPeers cache1).
Proof.
  split; [| split]; cbn; apply int64_map_insert; try apply int64_map_empty;
    unfold is_int64, MinInt64, MaxInt64; lia.
Qed.

Example ExportJSON_cache1 :
  ExportJSON cache1
  = Ok (json.Object [("channels", json.Object [("1234567890", json.Number 77)]);
                     ("users", json.Object [("42", json.Number 9001)]);
                     ("chats", json.Object [("7", json.Number 7)])]).
Proof. vm_compute. reflexivity. Qed.

Lemma Export_Import_roundtrip_witness :
  (int64_index (InputPeers cache1) ∧ InputPeers NewCache = mkInputPeerCache ∅ ∅ ∅) ∧
  ∃ data, ExportJSON cache1 = Ok data ∧
          ImportJSON NewCache data = (mkCACHE ∅ ∅ ∅ (InputPeers cache1), None).
Proof.
  exact (conj (conj cache1_int64 eq_refl)
           (Export_Import_roundtrip cache1 NewCache cache1_int64 eq_refl)).
Defined.

End json_instances.

(** * Further properties of the code *)

(** ** [network.go]: send path and receive path together *)

Section traffic_facts.
Import gogram mtproto.
Context `{Externals}.


(** X2. A frame the transport refuses.  The caller gets the transport's error
    wrapped as "writing message: ...", and the session stays as the send
    left it: new message ID, counter up by 2, frame handed over, and the
    reply slot and type hints still filed under the new ID. *)
Theorem sendPacket_write_error now request expected (w : World) msg t e :
  Marshal request = Ok msg →
  transport (session w) = Some t →
  (∀ data ack seq, WriteMsg t data ack seq = Some e) →
  let msgID := GenerateMessageId now (lastMessageID (session w)) in
  let resp := if serviceModeActivated (session w)
              then serviceChannel (session w) else length (chans w) in
  let w' := (sendPacket now request expected w).1 in
  (sendPacket now request expected w).2 = Err ("writing message: " +:+ e) ∧
  lastMessageID (session w') = msgID ∧
  seqNo (session w') = wrap32 (seqNo (session w) + 2) ∧
  length (wire w') = S (length (wire w)) ∧
  (isNullableResponse request = false →
   responseChannels (session w') !! msgID = Some resp) ∧
  (expected ≠ [] → expectedTypes (session w') !! msgID = Some expected).
Proof.
  intros HM Ht Hwrite. cbn zeta.
  rewrite (sendPacket_marshalled _ _ _ _ msg HM), Ht. cbn zeta. rewrite Hwrite.
  cbn [fst snd session lastMessageID seqNo responseChannels expectedTypes wire].
  split; [done |]. split; [done |]. split; [done |].
  split; [rewrite length_app; cbn; lia |]. split.
  - intros ->. by rewrite lookup_insert_eq.
  - intros Hne. destruct expected; [done |]. cbn. by rewrite lookup_insert_eq.
Qed.

End traffic_facts.

(** ** [network.go]: reply handles *)

Section handle_facts.
Import gogram mtproto.
Context `{Externals}.

Lemma sendPacket_handle now request expected (w : World) :
  let w' := (sendPacket now request expected w).1 in
  let r := (sendPacket now request expected w).2 in
  serviceModeActivated (session w') = serviceModeActivated (session w) ∧
  serviceChannel (session w') = serviceChannel (session w) ∧
  (serviceModeActivated (session w) = true →
   length (chans w') = length (chans w) ∧
   ∀ h, r = Ok h → h = serviceChannel (session w)) ∧
  (serviceModeActivated (session w) = false →
   (length (chans w) ≤ length (chans w') ≤ S (length (chans w)))%nat ∧
   ∀ h, r = Ok h → h = length (chans w) ∧ length (chans w') = S (length (chans w))).
Proof.
  cbn zeta. destruct (Marshal request) as [msg | err] eqn:HM.
  - rewrite (sendPacket_marshalled _ _ _ _ msg HM). cbn zeta.
    destruct (transport (session w)) as [t |];
      cbn [fst snd session chans serviceModeActivated serviceChannel].
    + split; [done |]. split; [done |]. split; intros Hs; rewrite Hs.
      * split; [by destruct (isNullableResponse request); rewrite ?length_alter |].
        intros h. by destruct (WriteMsg t _ _ _); [| intros [= <-]].
      * assert (Hlen : length (if isNullableResponse request
                               then alter (λ q, (q ++ [Null])%list) (length (chans w))
                                      (chans w ++ [[]])%list
                               else (chans w ++ [[]])%list) = S (length (chans w))).
        { destruct (isNullableResponse request);
            rewrite ?length_alter, length_app; cbn; lia. }
        rewrite Hlen. split; [lia |].
        intros h. by destruct (WriteMsg t _ _ _); [| intros [= <-]].
    + split; [done |]. split; [done |]. split; intros Hs; rewrite Hs.
      * split; [by destruct (isNullableResponse request); rewrite ?length_alter | done].
      * split; [| done].
        destruct (isNullableResponse request);
          rewrite ?length_alter, length_app; cbn; lia.
  - rewrite (sendPacket_marshal_error _ _ _ _ err HM). cbn.
    repeat split; intros; (lia || done).
Qed.

(** X3. Outside service mode every reply handle is a new channel: the handles
    a run of [sendPacket] calls returns are pairwise distinct, and none of
    them is a channel that existed before the run. *)
Theorem reply_handles_fresh (calls : list Call) (w : World) :
  serviceModeActivated (session w) = false →
  NoDup (handles (sendPackets calls w).2) ∧
  (∀ h, h ∈ handles (sendPackets calls w).2 →
        length (chans w) ≤ h < length (chans (sendPackets calls w).1))%nat.
Proof.
  intros Hs.
  cut (NoDup (handles (sendPackets calls w).2) ∧
       (∀ h, h ∈ handles (sendPackets calls w).2 →
             length (chans w) ≤ h < length (chans (sendPackets calls w).1))%nat ∧
       (length (chans w) ≤ length (chans (sendPackets calls w).1))%nat).
  { tauto. }
  revert w Hs. induction calls as [| c calls IH]; intros w Hs.
  - cbn. split; [constructor |]. split; [| lia]. intros h Hh. by apply elem_of_nil in Hh.
  - cbn [sendPackets].
    pose proof (sendPacket_handle (call_now c) (call_request c) (call_expected c) w)
      as (Hmode & _ & _ & Hfresh).
    cbn zeta in Hmode, Hfresh. specialize (Hfresh Hs) as [Hlen Hret].
    destruct (sendPacket _ _ _ w) as [w1 r]. cbn [fst snd] in *.
    destruct (IH w1 (eq_trans Hmode Hs)) as (Hnd & Hin & Hmono).
    destruct (sendPackets calls w1) as [w2 rs]. cbn [fst snd] in *.
    destruct r as [h0 | e]; cbn [handles omap].
    + destruct (Hret h0 eq_refl) as [-> Hlen1].
      change (omap _ rs) with (handles rs). split; [| split; [| lia]].
      * apply NoDup_cons. split; [| done]. intros Hh. apply Hin in Hh. lia.
      * intros h [-> | Hh]%elem_of_cons; [lia |]. apply Hin in Hh. lia.
    + change (omap _ rs) with (handles rs). split; [done |]. split; [| lia].
      intros h Hh. apply Hin in Hh. lia.
Qed.

(** X4. In service mode no channel is made: a run of [sendPacket] calls leaves
    the number of channels as it was, and every handle it returns is the one
    shared service channel. *)
Theorem service_mode_shares_handle (calls : list Call) (w : World) :
  serviceModeActivated (session w) = true →
  length (chans (sendPackets calls w).1) = length (chans w) ∧
  ∀ h, h ∈ handles (sendPackets calls w).2 → h = serviceChannel (session w).
Proof.
  revert w. induction calls as [| c calls IH]; intros w Hs.
  - cbn. split; [done |]. intros h Hh. by apply elem_of_nil in Hh.
  - cbn [sendPackets].
    pose proof (sendPacket_handle (call_now c) (call_request c) (call_expected c) w)
      as (Hmode & Hch & Hshared & _).
    cbn zeta in Hmode, Hch, Hshared. specialize (Hshared Hs) as [Hlen Hret].
    destruct (sendPacket _ _ _ w) as [w1 r]. cbn [fst snd] in *.
    destruct (IH w1 (eq_trans Hmode Hs)) as (Hlen' & Hin).
    destruct (sendPackets calls w1) as [w2 rs]. cbn [fst snd] in *.
    split; [congruence |].
    destruct r as [h0 | e]; cbn [handles omap]; change (omap _ rs) with (handles rs).
    + intros h [-> | Hh]%elem_of_cons; [by apply Hret |].
      rewrite <- Hch. by apply Hin.
    + intros h Hh. rewrite <- Hch. by apply Hin.
Qed.

End handle_facts.

(** ** [network.go]: what the two tables and the counter keep *)

Section table_facts.
Import gogram mtproto.
Context `{Externals}.

Lemma sendPacket_pending_below now request expected (w : World) :
  GenerateMessageId_increasing → pending_below w →
  pending_below (sendPacket now request expected w).1.
Proof.
  intros Hgen Hw. destruct (Marshal request) as [msg | err] eqn:HM.
  - rewrite (sendPacket_marshalled _ _ _ _ msg HM). cbn zeta.
    pose proof (Hgen now (lastMessageID (session w))) as Hlt.
    assert (Hk : ∀ k,
      is_Some ((if isNullableResponse request then responseChannels (session w)
                else <[GenerateMessageId now (lastMessageID (session w)) :=
                        if serviceModeActivated (session w)
                        then serviceChannel (session w) else length (chans w)]>
                       (responseChannels (session w))) !! k)
      ∨ is_Some ((if (0 <? List.length expected)%nat
                  then <[GenerateMessageId now (lastMessageID (session w)) := expected]>
                         (expectedTypes (session w))
                  else expectedTypes (session w)) !! k) →
      k ≤ GenerateMessageId now (lastMessageID (session w))).
    { intros k Hk.
      destruct (decide (k = GenerateMessageId now (lastMessageID (session w))))
        as [-> | Hne]; [lia |].
      assert (k ≤ lastMessageID (session w)); [| lia].
      apply Hw.
      destruct (isNullableResponse request), (0 <? List.length expected)%nat;
        rewrite ?lookup_insert_ne in Hk by done; exact Hk. }
    by destruct (transport (session w)).
  - by rewrite (sendPacket_marshal_error _ _ _ _ err HM).
Qed.

Lemma writeRPCResponse_pending_below msgID data (w : World) :
  pending_below w → pending_below (writeRPCResponse msgID data w).1.
Proof.
  intros Hw. unfold writeRPCResponse, bind, this, update, chan_send, ret, fail.
  cbn [fst snd]. destruct (responseChannels (session w) !! msgID) as [v |] eqn:Hv;
    cbn [fst snd session]; [| done].
  intros k Hk. cbn [session lastMessageID responseChannels expectedTypes
                      set_responseChannels set_expectedTypes] in Hk |- *.
  apply Hw. destruct Hk as [Hk | Hk]; [left | right];
    (destruct (decide (k = msgID)) as [-> | Hne];
     [by rewrite lookup_delete_eq in Hk; destruct Hk
     | by rewrite lookup_delete_ne in Hk]).
Qed.

Lemma traffic_pending_below (ops : list Op) (w : World) :
  GenerateMessageId_increasing → pending_below w → pending_below (traffic ops w).
Proof.
  intros Hgen. revert w. induction ops as [| [c | msgID data] ops IH]; intros w Hw.
  - done.
  - cbn [traffic]. by apply IH, sendPacket_pending_below.
  - cbn [traffic]. by apply IH, writeRPCResponse_pending_below.
Qed.

(** X5. A new message ID never lands on a pending entry.  Whatever requests
    went out and replies came in before, the ID the next [sendPacket] takes
    has neither a reply slot nor type hints filed under it, provided new IDs
    are greater than the ones before and the tables started out with no
    entry above [lastMessageID]. *)
Theorem new_id_never_pending (ops : list Op) (w : World) (now : Z) :
  GenerateMessageId_increasing →
  pending_below w →
  let w1 := traffic ops w in
  let msgID := GenerateMessageId now (lastMessageID (session w1)) in
  responseChannels (session w1) !! msgID = None ∧
  expectedTypes (session w1) !! msgID = None.
Proof.
  intros Hgen Hw. cbn zeta.
  pose proof (traffic_pending_below ops w Hgen Hw) as Hw1.
  pose proof (Hgen now (lastMessageID (session (traffic ops w)))) as Hlt.
  split; apply eq_None_not_Some; intros Hsome.
  - pose proof (Hw1 _ (or_introl Hsome)). lia.
  - pose proof (Hw1 _ (or_intror Hsome)). lia.
Qed.

Lemma even_wrap32 (x : Z) : Z.even (wrap32 x) = Z.even x.
Proof.
  unfold wrap32.
  rewrite Z.even_sub, (Z.mod_eq (x + 2 ^ 31) (2 ^ 32)) by lia.
  rewrite Z.even_sub, Z.even_mul, Z.even_add.
  change (Z.even (2 ^ 32)) with true. change (Z.even (2 ^ 31)) with true.
  by destruct (Z.even x).
Qed.

(** X6. The counter keeps its parity, wrap-around included: on a session whose
    counter is even (the zero value of the field is), every sequence number
    handed to the transport is even. *)
Theorem seqNo_stays_even (calls : list Call) (w : World) :
  Z.even (seqNo (session w)) = true →
  Forall (λ f : Frame, Z.even f.2 = true) (wire w) →
  Z.even (seqNo (session (sendPackets calls w).1)) = true ∧
  Forall (λ f : Frame, Z.even f.2 = true) (wire (sendPackets calls w).1).
Proof.
  revert w. induction calls as [| c calls IH]; intros w Hs Hw; [done |].
  cbn [sendPackets].
  assert (Hstep :
    Z.even (seqNo (session (sendPacket (call_now c) (call_request c)
                              (call_expected c) w).1)) = true ∧
    Forall (λ f : Frame, Z.even f.2 = true)
      (wire (sendPacket (call_now c) (call_request c) (call_expected c) w).1)).
  { destruct (Marshal (call_request c)) as [msg | err] eqn:HM.
    - rewrite (sendPacket_marshalled _ _ _ _ msg HM). cbn zeta.
      assert (He : Z.even (wrap32 (seqNo (session w) + 2)) = true).
      { rewrite even_wrap32, Z.even_add, Hs. done. }
      destruct (transport (session w)) as [t |]; cbn [fst session seqNo wire].
      + split; [done |]. apply Forall_app. split; [done |].
        apply Forall_singleton. cbn. by destruct (encrypted (session w)).
      + done.
    - by rewrite (sendPacket_marshal_error _ _ _ _ err HM). }
  destruct Hstep as [Hs1 Hw1].
  destruct (sendPacket _ _ _ w) as [w1 r]. cbn [fst] in *.
  specialize (IH w1 Hs1 Hw1).
  by destruct (sendPackets calls w1) as [w2 rs].
Qed.

(** X7. Reply slots only go away by delivery: [sendPacket] never takes one
    out, so a run of sends adds one slot for every request that is accepted
    and is not a [Pong] or [MsgsAck]. *)
Theorem reply_slots_accumulate (calls : list Call) (w : World) :
  GenerateMessageId_increasing →
  pending_below w →
  size (responseChannels (session (sendPackets calls w).1))
  = (size (responseChannels (session w)) + length (List.filter files_slot calls))%nat.
Proof.
  intros Hgen. revert w. induction calls as [| c calls IH]; intros w Hw.
  - cbn. lia.
  - cbn [sendPackets List.filter].
    pose proof (sendPacket_pending_below (call_now c) (call_request c)
                  (call_expected c) w Hgen Hw) as Hw1.
    assert (Hsize :
      size (responseChannels (session (sendPacket (call_now c) (call_request c)
                                         (call_expected c) w).1))
      = (size (responseChannels (session w)) + if files_slot c then 1 else 0)%nat).
    { unfold files_slot. destruct (Marshal (call_request c)) as [msg | err] eqn:HM.
      - rewrite (sendPacket_marshalled _ _ _ _ msg HM). cbn zeta.
        assert (Hfresh : responseChannels (session w)
                           !! GenerateMessageId (call_now c) (lastMessageID (session w))
                         = None).
        { apply eq_None_not_Some. intros Hsome.
          pose proof (Hw _ (or_introl Hsome)).
          pose proof (Hgen (call_now c) (lastMessageID (session w))). lia. }
        destruct (transport (session w)); cbn [fst session responseChannels];
          destruct (isNullableResponse (call_request c)); cbn [negb];
          rewrite ?map_size_insert_None by done; lia.
      - rewrite (sendPacket_marshal_error _ _ _ _ err HM). cbn. lia. }
    destruct (sendPacket _ _ _ w) as [w1 r]. cbn [fst] in *.
    specialize (IH w1 Hw1).
    destruct (sendPackets calls w1) as [w2 rs]. cbn [fst] in *.
    rewrite IH, Hsize. destruct (files_slot c); cbn [length]; lia.
Qed.

End table_facts.

(** ** [network.go]: keys and stored sessions *)

Section session_facts.
Import gogram mtproto.

(** X8. Saving after loading hands the storage the very record that was
    loaded, and loading what was just saved changes nothing; loading leaves
    the counters, the tables and the mode of the send path alone. *)
Theorem session_round_trip (s : Session) (c : Conn) :
  (SaveSession (LoadSession s c)).1 = s ∧
  LoadSession (SaveSession c).1 c = c ∧
  set_authKeyHash (authKeyHash (mt c)) (mt (LoadSession s c)) = mt c.
Proof. destruct s, c as [[] ? ? ? ? ? ? ?]. repeat split. Qed.

(** X9. The key hash in the envelope.  After [SetAuthKey] an encrypted frame
    carries the hash computed from the new key; after [LoadSession] it
    carries the hash of the stored record as it is, not one computed from the
    stored key.  A plaintext frame carries no hash either way. *)
Theorem envelope_key_hash `{Externals} `{Hashing} key s (c : Conn) ch wr
    now request expected msg t :
  Marshal request = Ok msg →
  transport (mt c) = Some t →
  let msgID := GenerateMessageId now (lastMessageID (mt c)) in
  let ack := MessageRequireToAck request in
  let seq := wrap32 (seqNo (mt c) + 2) in
  wire (sendPacket now request expected (mkWorld (mt (SetAuthKey key c)) ch wr)).1
  = (wr ++ [if encrypted (mt c)
            then (Encrypted msg msgID (AuthKeyHash key), ack, seq)
            else (Unencrypted msg msgID, ack, 0)])%list ∧
  wire (sendPacket now request expected (mkWorld (mt (LoadSession s c)) ch wr)).1
  = (wr ++ [if encrypted (mt c)
            then (Encrypted msg msgID (Hash s), ack, seq)
            else (Unencrypted msg msgID, ack, 0)])%list.
Proof.
  intros HM Ht. cbn zeta.
  rewrite !(sendPacket_marshalled _ _ _ _ msg HM). cbn zeta.
  destruct c as [[lm sn enc akh sm sc rc et tr] ? ? ? ? ? ? ?].
  cbn in Ht |- *. rewrite Ht. cbn. by destruct enc.
Qed.

End session_facts.

(** ** [network.go]: the same on sample sessions *)

Section traffic_instances.
Import gogram mtproto samples samples_more.

Lemma pending_below_session0 enc t : pending_below (session0 enc t).
Proof. intros k [Hk | Hk]; cbn in Hk; rewrite lookup_empty in Hk; by destruct Hk. Qed.


Lemma sendPacket_write_error_witness :
  (@Marshal ext ping = Ok [Byte.x01; Byte.x02] ∧
   transport (session (session0 true (Some jammed))) = Some jammed) ∧
  (@sendPacket ext 100 ping ["Pong"] (session0 true (Some jammed))).2
    = Err "writing message: broken pipe" ∧
  lastMessageID (session (@sendPacket ext 100 ping ["Pong"]
                            (session0 true (Some jammed))).1) = 100 ∧
  seqNo (session (@sendPacket ext 100 ping ["Pong"] (session0 true (Some jammed))).1) = 2 ∧
  length (wire (@sendPacket ext 100 ping ["Pong"] (session0 true (Some jammed))).1) = 1%nat ∧
  responseChannels (session (@sendPacket ext 100 ping ["Pong"]
                               (session0 true (Some jammed))).1) !! 100 = Some 0%nat ∧
  expectedTypes (session (@sendPacket ext 100 ping ["Pong"]
                            (session0 true (Some jammed))).1) !! 100 = Some ["Pong"].
Proof.
  destruct (@sendPacket_write_error ext 100 ping ["Pong"] (session0 true (Some jammed))
              [Byte.x01; Byte.x02] jammed "broken pipe" eq_refl eq_refl (λ _ _ _, eq_refl))
    as (H1 & H2 & H3 & H4 & H5 & H6).
  exact (conj (conj eq_refl eq_refl)
           (conj H1 (conj H2 (conj H3 (conj H4
              (conj (H5 eq_refl) (H6 (λ Hnil, eq_ind [] (λ l, match l with
                                                            | [] => True
                                                            | _ :: _ => False
                                                            end) I _ (eq_sym Hnil))))))))).
Defined.

Lemma reply_handles_fresh_witness :
  serviceModeActivated (session (session0 true (Some tcp))) = false ∧
  NoDup (handles (@sendPackets ext three_pings (session0 true (Some tcp))).2) ∧
  (∀ h, h ∈ handles (@sendPackets ext three_pings (session0 true (Some tcp))).2 →
        length (chans (session0 true (Some tcp))) ≤ h
        < length (chans (@sendPackets ext three_pings (session0 true (Some tcp))).1))%nat.
Proof.
  exact (conj eq_refl
           (@reply_handles_fresh ext three_pings (session0 true (Some tcp)) eq_refl)).
Defined.

Lemma service_mode_shares_handle_witness :
  serviceModeActivated (session service0) = true ∧
  length (chans (@sendPackets ext three_pings service0).1) = 1%nat ∧
  ∀ h, h ∈ handles (@sendPackets ext three_pings service0).2 → h = 0%nat.
Proof.
  exact (conj eq_refl (@service_mode_shares_handle ext three_pings service0 eq_refl)).
Defined.

Lemma new_id_never_pending_witness :
  (@GenerateMessageId_increasing ext ∧ pending_below (session0 true (Some tcp))) ∧
  responseChannels (session (@traffic ext ping_pong_ping (session0 true (Some tcp))))
    !! @GenerateMessageId ext 70
         (lastMessageID (session (@traffic ext ping_pong_ping (session0 true (Some tcp)))))
  = None ∧
  expectedTypes (session (@traffic ext ping_pong_ping (session0 true (Some tcp))))
    !! @GenerateMessageId ext 70
         (lastMessageID (session (@traffic ext ping_pong_ping (session0 true (Some tcp)))))
  = None.
Proof.
  exact (conj (conj ext_increasing (pending_below_session0 true (Some tcp)))
           (@new_id_never_pending ext ping_pong_ping (session0 true (Some tcp)) 70
              ext_increasing (pending_below_session0 true (Some tcp)))).
Defined.

Lemma seqNo_stays_even_witness :
  (Z.even (seqNo (session (session0 true (Some tcp)))) = true ∧
   Forall (λ f : Frame, Z.even f.2 = true) (wire (session0 true (Some tcp)))) ∧
  Z.even (seqNo (session (@sendPackets ext three_pings (session0 true (Some tcp))).1)) = true ∧
  Forall (λ f : Frame, Z.even f.2 = true)
    (wire (@sendPackets ext three_pings (session0 true (Some tcp))).1).
Proof.
  exact (conj (conj eq_refl (Forall_nil_2 _))
           (@seqNo_stays_even ext three_pings (session0 true (Some tcp)) eq_refl
              (Forall_nil_2 _))).
Defined.

Lemma reply_slots_accumulate_witness :
  (@GenerateMessageId_increasing ext ∧ pending_below (session0 true (Some tcp))) ∧
  size (responseChannels
          (session (@sendPackets ext (mkCall 100 (Pong 1 2) [] :: mkCall 110 unregistered []
                                        :: three_pings)
                      (session0 true (Some tcp))).1))
  = (size (responseChannels (session (session0 true (Some tcp))))
     + length (List.filter (@files_slot ext)
                 (mkCall 100 (Pong 1 2) [] :: mkCall 110 unregistered [] :: three_pings)))%nat.
Proof.
  exact (conj (conj ext_increasing (pending_below_session0 true (Some tcp)))
           (@reply_slots_accumulate ext
              (mkCall 100 (Pong 1 2) [] :: mkCall 110 unregistered [] :: three_pings)
              (session0 true (Some tcp)) ext_increasing
              (pending_below_session0 true (Some tcp)))).
Defined.

Lemma envelope_key_hash_witness :
  (@Marshal ext ping = Ok [Byte.x01; Byte.x02] ∧ transport (mt conn0) = Some tcp) ∧
  wire (@sendPacket ext 100 ping []
          (mkWorld (mt (@SetAuthKey first_byte [Byte.x07; Byte.x08] conn0)) [] [])).1
  = [(Encrypted [Byte.x01; Byte.x02] 100 [Byte.x07], true, 2)] ∧
  wire (@sendPacket ext 100 ping [] (mkWorld (mt (LoadSession stored conn0)) [] [])).1
  = [(Encrypted [Byte.x01; Byte.x02] 100 [Byte.x0c], true, 2)].
Proof.
  exact (conj (conj eq_refl eq_refl)
           (@envelope_key_hash ext first_byte [Byte.x07; Byte.x08] stored conn0 [] []
              100 ping [] [Byte.x01; Byte.x02] tcp eq_refl eq_refl)).
Defined.

End traffic_instances.

(** ** [cache.go]: what [GetInputPeer] does to the ID it is given *)

Section normalize_facts.
Import strconv strings telegram cache.

Lemma strip_prefix_Some (p s r : string) : strip_prefix p s = Some r → s = p +:+ r.
Proof.
  revert s. induction p as [| a p IH]; intros s Hs.
  - cbn in Hs. by injection Hs as ->.
  - destruct s as [| b s]; [done |]. cbn [strip_prefix] in Hs.
    destruct (Ascii.eqb_spec a b) as [-> | Hne]; [| done].
    change (String b s = String b (p +:+ r)). f_equal. by apply IH.
Qed.

Lemma digit_val_range (c : ascii) (d : Z) : digit_val c = Some d → 0 ≤ d ≤ 9.
Proof.
  unfold digit_val. destruct (_ && _) eqn:Hb; [| done]. intros [= <-].
  apply andb_true_iff in Hb as [H1%Z.leb_le H2%Z.leb_le]. lia.
Qed.

(** Digits read with something already in the accumulator. *)
Lemma parse_digits_shift (s : string) (acc : Z) :
  parse_digits s acc
  = (λ v, acc * 10 ^ Z.of_nat (String.length s) + v) <$> parse_digits s 0.
Proof.
  revert acc. induction s as [| c s IH]; intros acc.
  - cbn. f_equal. lia.
  - cbn [parse_digits String.length]. destruct (digit_val c) as [d |]; [| done].
    rewrite (IH (acc * 10 + d)), (IH (0 * 10 + d)).
    destruct (parse_digits s 0) as [v |]; [| done]. cbn. f_equal.
    replace (Z.of_nat (S (String.length s))) with (Z.of_nat (String.length s) + 1) by lia.
    rewrite Z.pow_add_r by lia. lia.
Qed.

Lemma parse_digits_bound (s : string) (v : Z) :
  parse_digits s 0 = Some v → 0 ≤ v < 10 ^ Z.of_nat (String.length s).
Proof.
  revert v. induction s as [| c s IH]; intros v Hv.
  - cbn in Hv. injection Hv as <-. cbn. lia.
  - cbn [parse_digits String.length] in Hv |- *.
    destruct (digit_val c) as [d |] eqn:Hd; [| done].
    apply digit_val_range in Hd. rewrite parse_digits_shift in Hv.
    destruct (parse_digits s 0) as [v0 |]; [| done]. injection Hv as <-.
    specialize (IH v0 eq_refl).
    replace (Z.of_nat (S (String.length s))) with (Z.of_nat (String.length s) + 1) by lia.
    rewrite Z.pow_add_r by lia. nia.
Qed.

(** What is behind the prefix of an ID whose text starts with ["-100"]. *)
Lemma prefixed_digits (p : Z) (s : string) :
  Itoa p = "-100" +:+ s →
  ∃ v, parse_digits s 0 = Some v ∧
       0 ≤ v < 10 ^ Z.of_nat (String.length s) ∧
       p = - (100 * 10 ^ Z.of_nat (String.length s) + v).
Proof.
  intros Hp. destruct p as [| q | q]; [done | |].
  { pose proof (HasPrefix_nonneg (Z.pos q) ltac:(lia)) as Hn.
    rewrite Hp in Hn. by rewrite (HasPrefix_app "-100" s) in Hn. }
  assert (Hq : Itoa (Z.pos q) = "100" +:+ s).
  { change (Itoa (Z.neg q)) with (String "-" (Itoa (Z.pos q))) in Hp.
    by injection Hp. }
  destruct (numeral_Itoa (Z.pos q) ltac:(lia)) as [_ Hparse].
  rewrite Hq, parse_digits_app in Hparse.
  change (parse_digits "100" 0) with (Some 100) in Hparse. cbv beta iota in Hparse.
  rewrite parse_digits_shift in Hparse.
  destruct (parse_digits s 0) as [v |] eqn:Hv; [| done].
  injection Hparse as Hparse. exists v. split; [done |].
  split; [by apply parse_digits_bound |]. lia.
Qed.

(** The three ways the first lines of [GetInputPeer] can go. *)
Lemma normalize_cases (p : Z) :
  is_int64 p →
  (normalized p ∧ normalize p = Ok p) ∨
  (p = -100 ∧ normalize p = Err (ErrSyntax "")) ∨
  (∃ s v, s ≠ "" ∧ Itoa p = "-100" +:+ s ∧
          0 ≤ v < 10 ^ Z.of_nat (String.length s) ∧
          p = - (100 * 10 ^ Z.of_nat (String.length s) + v) ∧
          normalize p = Ok v).
Proof.
  intros Hp. unfold normalized, normalize, HasPrefix, TrimPrefix.
  destruct (strip_prefix "-100" (Itoa p)) as [r |] eqn:Hr; [| by left].
  right. apply strip_prefix_Some in Hr.
  destruct (prefixed_digits p r Hr) as (v & Hv & Hb & Heq).
  destruct (decide (r = "")) as [-> | Hne].
  - left. split; [| done].
    apply (inj pretty). exact Hr.
  - right. exists r, v. repeat split; try (done || lia).
    assert (Hpow : 0 < 10 ^ Z.of_nat (String.length r)) by (apply Z.pow_pos_nonneg; lia).
    rewrite (Atoi_numeral r v); [done | by split |].
    unfold is_int64, MinInt64, MaxInt64 in *. lia.
Qed.

(** X10. [GetInputPeer] gives up before looking anything up for one ID only:
    -100, where nothing is left behind the prefix. *)
Theorem normalize_fails_only_at_minus_100 (p : Z) :
  is_int64 p →
  ((∃ e, normalize p = Err e) ↔ p = -100) ∧
  (p = -100 → ∀ c, GetInputPeer c p = Err (ErrSyntax "")).
Proof.
  intros Hp. split; [split |].
  - intros [e He].
    destruct (normalize_cases p Hp) as [[_ H1] | [[H1 _] | (s & v & _ & _ & _ & _ & H1)]];
      [congruence | done | congruence].
  - intros ->. by eexists.
  - by intros -> c.
Qed.

Lemma normalize_fails_only_at_minus_100_witness :
  is_int64 (-100) ∧
  ((∃ e, normalize (-100) = Err e) ↔ -100 = -100) ∧
  (-100 = -100 → ∀ c, GetInputPeer c (-100) = Err (ErrSyntax "")).
Proof.
  assert (H : is_int64 (-100)) by (unfold is_int64, MinInt64, MaxInt64; lia).
  exact (conj H (normalize_fails_only_at_minus_100 (-100) H)).
Defined.

(** X11. What the ID becomes when it is accepted: itself, or, when its text
    starts with ["-100"], the number written behind that prefix, which is
    never negative.  Either way the outcome is an ID that would be looked up
    as it stands, and looking that one up gives the same answer. *)
Theorem normalize_result (p n : Z) :
  is_int64 p → normalize p = Ok n →
  ((normalized p ∧ n = p) ∨
   (∃ k : nat, 0 ≤ n < 10 ^ Z.of_nat k ∧ p = - (100 * 10 ^ Z.of_nat k + n))) ∧
  normalized n ∧
  ∀ c, GetInputPeer c n = GetInputPeer c p.
Proof.
  intros Hp Hn.
  assert (Hnn : normalized n).
  { destruct (normalize_cases p Hp) as [[H0 H1] | [[_ H1] | (s & v & _ & _ & Hb & _ & H1)]].
    - congruence.
    - congruence.
    - assert (n = v) as -> by congruence. apply nonneg_normalized. lia. }
  split; [| split; [done |]].
  - destruct (normalize_cases p Hp) as [[H0 H1] | [[_ H1] | (s & v & _ & _ & Hb & Heq & H1)]].
    + left. split; [done | congruence].
    + congruence.
    + right. exists (String.length s). assert (n = v) as -> by congruence. done.
  - intros c. rewrite (GetInputPeer_probe c p n Hn).
    by rewrite (GetInputPeer_probe c n n (normalize_normalized n Hnn)).
Qed.

Lemma normalize_result_witness :
  (is_int64 (-10042) ∧ normalize (-10042) = Ok 42) ∧
  ((normalized (-10042) ∧ 42 = -10042) ∨
   (∃ k : nat, 0 ≤ 42 < 10 ^ Z.of_nat k ∧ -10042 = - (100 * 10 ^ Z.of_nat k + 42))) ∧
  normalized 42 ∧
  ∀ c, GetInputPeer c 42 = GetInputPeer c (-10042).
Proof.
  assert (H : is_int64 (-10042)) by (unfold is_int64, MinInt64, MaxInt64; lia).
  exact (conj (conj H eq_refl) (normalize_result (-10042) 42 H eq_refl)).
Defined.

(** X12. A reference that [GetInputPeer] returns carries the ID that was looked
    up, and that ID never has the prefix: an index entry filed under a key
    whose text starts with ["-100"] cannot be reached through it. *)
Theorem GetInputPeer_returns_normalized (c : CACHE) (p : Z) (ref : InputPeer) :
  is_int64 p → GetInputPeer c p = Ok ref →
  normalize p = Ok (InputPeer_ID ref) ∧ normalized (InputPeer_ID ref).
Proof.
  intros Hp Href.
  destruct (normalize p) as [n | e] eqn:Hn.
  - rewrite (GetInputPeer_probe c p n Hn) in Href.
    assert (InputPeer_ID ref = n) as ->.
    { unfold probe in Href.
      destruct (InputUsers (InputPeers c) !! n); [by injection Href as <- |].
      destruct (InputChats (InputPeers c) !! n); [by injection Href as <- |].
      destruct (InputChannels (InputPeers c) !! n); [by injection Href as <- | done]. }
    split; [done |].
    destruct (normalize_cases p Hp) as [[H0 H1] | [[_ H1] | (s & v & _ & _ & Hb & _ & H1)]].
    + congruence.
    + congruence.
    + assert (n = v) as -> by congruence. apply nonneg_normalized. lia.
  - unfold GetInputPeer in Href. by rewrite Hn in Href.
Qed.

Lemma GetInputPeer_returns_normalized_witness :
  (is_int64 (-1001234567890) ∧
   GetInputPeer samples.cache1 (-1001234567890) = Ok (InputPeerChannel 1234567890 77)) ∧
  normalize (-1001234567890) = Ok 1234567890 ∧ normalized 1234567890.
Proof.
  assert (H : is_int64 (-1001234567890)) by (unfold is_int64, MinInt64, MaxInt64; lia).
  exact (conj (conj H eq_refl)
           (GetInputPeer_returns_normalized samples.cache1 (-1001234567890)
              (InputPeerChannel 1234567890 77) H eq_refl)).
Defined.

End normalize_facts.

(** ** [cache.go]: channels, chats and the order of the indexes *)

Section kinds_facts.
Import telegram cache.

(** X13. After [UpdateChannel], [GetChannel] with the channel's ID returns that
    record without a request.  [GetInputPeer] with that ID returns the
    channel reference with the record's access hash only when neither the
    user index nor the chat index holds the ID: a user or chat of the same ID
    is found first. *)
Theorem UpdateChannel_then_lookup `{Server} (c : CACHE) (channel : Channel.t) :
  records_by_id c → normalized (Channel.ID channel) →
  GetChannel (UpdateChannel c channel) (Channel.ID channel) = ([], Ok channel) ∧
  GetInputPeer (UpdateChannel c channel) (Channel.ID channel)
  = match InputUsers (InputPeers c) !! Channel.ID channel with
    | Some userHash => Ok (InputPeerUser (Channel.ID channel) userHash)
    | None =>
        match InputChats (InputPeers c) !! Channel.ID channel with
        | Some _ => Ok (InputPeerChat (Channel.ID channel))
        | None => Ok (InputPeerChannel (Channel.ID channel) (Channel.AccessHash channel))
        end
    end.
Proof.
  intros Hwf Hn. split.
  - unfold GetChannel, getChannelFromCache.
    rewrite (range_find_record Channel.ID (channels (UpdateChannel c channel)) _
               (Channel.ID channel)).
    + cbn. by rewrite lookup_insert_eq.
    + intros k v. apply elem_of_map_to_list.
    + apply (records_by_id_UpdateChannel c channel Hwf).
  - rewrite (GetInputPeer_probe _ _ _ (normalize_normalized _ Hn)).
    unfold probe. cbn. by rewrite lookup_insert_eq.
Qed.

Lemma UpdateChannel_then_lookup_witness :
  (records_by_id NewCache ∧ normalized (Channel.ID samples.news)) ∧
  @GetChannel samples.offline (UpdateChannel NewCache samples.news) 1234567890
  = ([], Ok samples.news) ∧
  GetInputPeer (UpdateChannel NewCache samples.news) 1234567890
  = Ok (InputPeerChannel 1234567890 77).
Proof.
  assert (H1 : normalized (Channel.ID samples.news)) by reflexivity.
  exact (conj (conj records_by_id_NewCache H1)
           (@UpdateChannel_then_lookup samples.offline NewCache samples.news
              records_by_id_NewCache H1)).
Defined.

(** X14. After [UpdateChat], [GetChat] with the chat's ID returns that record
    without a request, and [GetInputPeer] returns the chat reference unless
    a user of the same ID is in the user index. *)
Theorem UpdateChat_then_lookup `{Server} (c : CACHE) (chat : ChatObj.t) :
  records_by_id c → normalized (ChatObj.ID chat) →
  GetChat (UpdateChat c chat) (ChatObj.ID chat) = ([], Ok chat) ∧
  GetInputPeer (UpdateChat c chat) (ChatObj.ID chat)
  = match InputUsers (InputPeers c) !! ChatObj.ID chat with
    | Some userHash => Ok (InputPeerUser (ChatObj.ID chat) userHash)
    | None => Ok (InputPeerChat (ChatObj.ID chat))
    end.
Proof.
  intros Hwf Hn. split.
  - unfold GetChat, getChatFromCache.
    rewrite (range_find_record ChatObj.ID (chats (UpdateChat c chat)) _ (ChatObj.ID chat)).
    + cbn. by rewrite lookup_insert_eq.
    + intros k v. apply elem_of_map_to_list.
    + apply (records_by_id_UpdateChat c chat Hwf).
  - rewrite (GetInputPeer_probe _ _ _ (normalize_normalized _ Hn)).
    unfold probe. cbn. by rewrite lookup_insert_eq.
Qed.

Lemma UpdateChat_then_lookup_witness :
  (records_by_id (UpdateUser NewCache (UserObj.mk 7 55 "Bob")) ∧
   normalized (ChatObj.ID samples.family)) ∧
  @GetChat samples.offline
    (UpdateChat (UpdateUser NewCache (UserObj.mk 7 55 "Bob")) samples.family) 7
  = ([], Ok samples.family) ∧
  GetInputPeer (UpdateChat (UpdateUser NewCache (UserObj.mk 7 55 "Bob")) samples.family) 7
  = Ok (InputPeerUser 7 55).
Proof.
  assert (H0 : records_by_id (UpdateUser NewCache (UserObj.mk 7 55 "Bob")))
    by apply records_by_id_UpdateUser, records_by_id_NewCache.
  assert (H1 : normalized (ChatObj.ID samples.family)) by reflexivity.
  exact (conj (conj H0 H1)
           (@UpdateChat_then_lookup samples.offline _ samples.family H0 H1)).
Defined.

(** X15. The scanning lookups and the direct lookups of a peer handle agree:
    [getUserPeer] and [GetPeerUser] (and the two for channels) succeed for
    the same IDs, with the same access hash, and fail with the same text. *)
Theorem peer_lookups_agree (c : CACHE) (id : Z) :
  match InputUsers (InputPeers c) !! id with
  | Some h =>
      getUserPeer c id = Ok (InputUserObj id h) ∧
      GetPeerUser c id = Ok (InputPeerUser id h)
  | None =>
      getUserPeer c id = Err (Errorf_d "no user with id " id " or missing from cache") ∧
      GetPeerUser c id = Err (Errorf_d "no user with id " id " or missing from cache")
  end ∧
  match InputChannels (InputPeers c) !! id with
  | Some h =>
      getChannelPeer c id = Ok (InputChannelObj id h) ∧
      GetPeerChannel c id = Ok (InputPeerChannel id h)
  | None =>
      getChannelPeer c id
      = Err (Errorf_d "no channel with id " id " or missing from cache") ∧
      GetPeerChannel c id
      = Err (Errorf_d "no channel with id " id " or missing from cache")
  end.
Proof.
  unfold getUserPeer, getChannelPeer, GetPeerUser, GetPeerChannel.
  rewrite !range_find_key.
  split.
  - by destruct (InputUsers (InputPeers c) !! id).
  - by destruct (InputChannels (InputPeers c) !! id).
Qed.

(** X16. A record that is not cached but whose handle is known.  With no
    cached user record of the ID and the ID in the user index, [GetUser]
    sends one [UsersGetUsers] request, for that ID with the access hash of
    the index, and returns the first object of the answer when it is a user
    object, whatever ID that object has; an error, an empty answer or another
    kind of object makes it fail.  [GetChannel] does the same with the
    channel records, the channel index and [ChannelsGetChannels]. *)
Theorem lookup_fetches_with_handle `{Server} (c : CACHE) (id : Z) :
  ((∀ k u, users c !! k = Some u → UserObj.ID u ≠ id) →
   ∀ hu, InputUsers (InputPeers c) !! id = Some hu →
   GetUser c id
   = ([FetchUsersGetUsers [InputUserObj id hu]],
      match UsersGetUsers [InputUserObj id hu] with
      | Ok (User_UserObj user :: _) => Ok user
      | Ok _ => Err (Errorf_d "no user with id " id "")
      | Err err => Err err
      end)) ∧
  ((∀ k ch, channels c !! k = Some ch → Channel.ID ch ≠ id) →
   ∀ hc, InputChannels (InputPeers c) !! id = Some hc →
   GetChannel c id
   = ([FetchChannelsGetChannels [InputChannelObj id hc]],
      match ChannelsGetChannels [InputChannelObj id hc] with
      | Ok (MessagesChatsObj (Chat_Channel channel :: _)) => Ok channel
      | Ok _ => Err (Errorf_d "no channel with id " id " or missing from cache")
      | Err err => Err err
      end)).
Proof.
  split.
  - intros Hu hu Hiu. unfold GetUser, getUserFromCache, getUserPeer.
    rewrite (range_find_no_record UserObj.ID (users c) id Hu).
    rewrite range_find_key, Hiu. cbn.
    by destruct (UsersGetUsers [InputUserObj id hu]) as [[| [? | ?] ?] | ?].
  - intros Hch hc Hich. unfold GetChannel, getChannelFromCache, getChannelPeer.
    rewrite (range_find_no_record Channel.ID (channels c) id Hch).
    rewrite range_find_key, Hich. cbn.
    by destruct (ChannelsGetChannels [InputChannelObj id hc])
      as [[[| [? | ? | ?] ?] | ? ?] | ?].
Qed.

Lemma lookup_fetches_with_handle_witness :
  InputChannels (InputPeers samples_more.user_handle_only) !! 5 = None ∧
  @GetUser samples_more.helpful samples_more.user_handle_only 5
  = ([FetchUsersGetUsers [InputUserObj 5 9]], Ok samples.alice) ∧
  InputUsers (InputPeers samples_more.channel_handle_only) !! 5 = None ∧
  @GetChannel samples_more.helpful samples_more.channel_handle_only 5
  = ([FetchChannelsGetChannels [InputChannelObj 5 8]], Ok samples.news).
Proof.
  exact (conj eq_refl
           (conj (proj1 (@lookup_fetches_with_handle samples_more.helpful
                           samples_more.user_handle_only 5)
                    (no_record_empty UserObj.ID 5) 9 eq_refl)
              (conj eq_refl
                 (proj2 (@lookup_fetches_with_handle samples_more.helpful
                           samples_more.channel_handle_only 5)
                    (no_record_empty Channel.ID 5) 8 eq_refl)))).
Defined.

End kinds_facts.

(** ** [cache.go]: batches *)

Section batch_facts.
Import telegram cache.

Lemma UpdatePeersToCache_folds (c : CACHE) (u : list User) (chs : list Chat) :
  UpdatePeersToCache c u chs = foldl add_chat (foldl add_user c u) chs.
Proof. reflexivity. Qed.

Lemma add_users_spec (u : list User) (c : CACHE) (k : Z) :
  chats (foldl add_user c u) = chats c ∧
  channels (foldl add_user c u) = channels c ∧
  InputChats (InputPeers (foldl add_user c u)) = InputChats (InputPeers c) ∧
  InputChannels (InputPeers (foldl add_user c u)) = InputChannels (InputPeers c) ∧
  (k ∉ user_ids u →
   users (foldl add_user c u) !! k = users c !! k ∧
   InputUsers (InputPeers (foldl add_user c u)) !! k = InputUsers (InputPeers c) !! k) ∧
  (k ∈ user_ids u →
   ∃ rec, User_UserObj rec ∈ u ∧ UserObj.ID rec = k ∧
          users (foldl add_user c u) !! k = Some rec).
Proof.
  revert c. induction u as [| x u IH]; intros c.
  - cbn. repeat split; try done. intros Hk. by apply elem_of_nil in Hk.
  - cbn [foldl]. destruct (IH (add_user c x)) as (H1 & H2 & H3 & H4 & Hout & Hin).
    destruct x as [us | eid]; cbn [add_user user_ids omap] in *.
    + change (omap _ u) with (user_ids u) in *.
      split; [by rewrite H1 |]. split; [by rewrite H2 |].
      split; [by rewrite H3 |]. split; [by rewrite H4 |]. split.
      * intros [Hne Hk]%not_elem_of_cons. destruct (Hout Hk) as [-> ->].
        cbn. by rewrite !lookup_insert_ne.
      * intros Hk. destruct (decide (k ∈ user_ids u)) as [Hku | Hku].
        -- destruct (Hin Hku) as (rec & Hrec & Hid & Hl).
           exists rec. split; [by right | done].
        -- apply elem_of_cons in Hk as [-> | Hk]; [| done].
           exists us. split; [by left |]. split; [done |].
           destruct (Hout Hku) as [-> _]. cbn. by rewrite lookup_insert_eq.
    + change (omap _ u) with (user_ids u) in *.
      repeat split; try done; try apply Hout; try apply Hin; try done.
      all: intros Hk; try (destruct (Hout Hk); done).
      destruct (Hin Hk) as (rec & Hrec & Hid & Hl). exists rec. split; [by right | done].
Qed.

Lemma add_chats_spec (chs : list Chat) (c : CACHE) (k : Z) :
  users (foldl add_chat c chs) = users c ∧
  InputUsers (InputPeers (foldl add_chat c chs)) = InputUsers (InputPeers c) ∧
  (k ∉ chat_ids chs →
   chats (foldl add_chat c chs) !! k = chats c !! k ∧
   channels (foldl add_chat c chs) !! k = channels c !! k ∧
   InputChats (InputPeers (foldl add_chat c chs)) !! k = InputChats (InputPeers c) !! k ∧
   InputChannels (InputPeers (foldl add_chat c chs)) !! k
   = InputChannels (InputPeers c) !! k).
Proof.
  revert c. induction chs as [| x chs IH]; intros c; [done |].
  cbn [foldl]. destruct (IH (add_chat c x)) as (H1 & H2 & Hout).
  destruct x as [ch | ch | oid]; cbn [add_chat chat_ids omap] in *;
    change (omap _ chs) with (chat_ids chs) in *.
  - split; [by rewrite H1 |]. split; [by rewrite H2 |].
    intros [Hne Hk]%not_elem_of_cons. destruct (Hout Hk) as (-> & -> & -> & ->).
    cbn. by rewrite !lookup_insert_ne.
  - split; [by rewrite H1 |]. split; [by rewrite H2 |].
    intros [Hne Hk]%not_elem_of_cons. destruct (Hout Hk) as (-> & -> & -> & ->).
    cbn. by rewrite !lookup_insert_ne.
  - done.
Qed.

(** X17. A batch touches only the IDs of its objects: for any other ID
    [GetInputPeer] answers after [UpdatePeersToCache] what it answered
    before. *)
Theorem UpdatePeersToCache_other_ids (c : CACHE) (u : list User) (chs : list Chat)
    (p n : Z) :
  normalize p = Ok n → n ∉ user_ids u → n ∉ chat_ids chs →
  GetInputPeer (UpdatePeersToCache c u chs) p = GetInputPeer c p.
Proof.
  intros Hn Hu Hc. rewrite !(GetInputPeer_probe _ p n Hn), UpdatePeersToCache_folds.
  destruct (add_chats_spec chs (foldl add_user c u) n) as (_ & HU & Hout).
  destruct (Hout Hc) as (_ & _ & HC & HCh).
  destruct (add_users_spec u c n) as (_ & _ & HC' & HCh' & Hout' & _).
  destruct (Hout' Hu) as [_ HU'].
  unfold probe. by rewrite HU, HU', HC, HC', HCh, HCh'.
Qed.

Lemma UpdatePeersToCache_other_ids_witness :
  (normalize (-10042) = Ok 42 ∧
   (42 ∉ user_ids [User_UserObj (UserObj.mk 43 1 "Carol")]) ∧
   (42 ∉ chat_ids [Chat_Other 42])) ∧
  GetInputPeer (UpdatePeersToCache samples.cache1
                  [User_UserObj (UserObj.mk 43 1 "Carol")] [Chat_Other 42]) (-10042)
  = GetInputPeer samples.cache1 (-10042).
Proof.
  assert (H1 : 42 ∉ user_ids [User_UserObj (UserObj.mk 43 1 "Carol")]).
  { intros Hin. cbn in Hin.
    apply elem_of_cons in Hin as [Heq | Hin]; [discriminate | by apply elem_of_nil in Hin]. }
  assert (H2 : 42 ∉ chat_ids [Chat_Other 42]).
  { intros Hin. by apply elem_of_nil in Hin. }
  exact (conj (conj eq_refl (conj H1 H2))
           (UpdatePeersToCache_other_ids samples.cache1 _ _ (-10042) 42 eq_refl H1 H2)).
Defined.

(** X18. Every user object of a batch is cached by it: afterwards [GetUser] with
    its ID returns, without a request, a user object of the batch with that
    ID. *)
Theorem UpdatePeersToCache_caches_users `{Server} (c : CACHE) (u : list User)
    (chs : list Chat) (us : UserObj.t) :
  records_by_id c → User_UserObj us ∈ u →
  ∃ rec, User_UserObj rec ∈ u ∧ UserObj.ID rec = UserObj.ID us ∧
         GetUser (UpdatePeersToCache c u chs) (UserObj.ID us) = ([], Ok rec).
Proof.
  intros Hwf Hus.
  assert (Hk : UserObj.ID us ∈ user_ids u).
  { apply list_elem_of_omap. by exists (User_UserObj us). }
  destruct (add_users_spec u c (UserObj.ID us)) as (_ & _ & _ & _ & _ & Hin).
  destruct (Hin Hk) as (rec & Hrec & Hid & Hl).
  exists rec. split; [done |]. split; [done |].
  unfold GetUser, getUserFromCache.
  rewrite (range_find_record UserObj.ID (users (UpdatePeersToCache c u chs)) _
             (UserObj.ID us)).
  - rewrite UpdatePeersToCache_folds.
    destruct (add_chats_spec chs (foldl add_user c u) 0) as (-> & _ & _).
    by rewrite Hl.
  - intros k v. apply elem_of_map_to_list.
  - apply (records_by_id_UpdatePeersToCache c u chs Hwf).
Qed.

Lemma UpdatePeersToCache_caches_users_witness :
  (records_by_id NewCache ∧
   (User_UserObj samples.alice ∈ [User_UserEmpty 1; User_UserObj samples.alice])) ∧
  ∃ rec, User_UserObj rec ∈ [User_UserEmpty 1; User_UserObj samples.alice] ∧
         UserObj.ID rec = UserObj.ID samples.alice ∧
         @GetUser samples.offline
           (UpdatePeersToCache NewCache [User_UserEmpty 1; User_UserObj samples.alice] [])
           (UserObj.ID samples.alice) = ([], Ok rec).
Proof.
  assert (H1 : User_UserObj samples.alice ∈ [User_UserEmpty 1; User_UserObj samples.alice]).
  { right. left. }
  exact (conj (conj records_by_id_NewCache H1)
           (@UpdatePeersToCache_caches_users samples.offline NewCache _ []
              samples.alice records_by_id_NewCache H1)).
Defined.

(** X19. Objects of kinds the cache does not know are passed over: a batch with
    no user object, chat object or channel leaves the cache as it was. *)
Theorem UpdatePeersToCache_skips_unknown (c : CACHE) (u : list User) (chs : list Chat) :
  user_ids u = [] → chat_ids chs = [] → UpdatePeersToCache c u chs = c.
Proof.
  intros Hu Hc. rewrite UpdatePeersToCache_folds.
  assert (Hfu : foldl add_user c u = c).
  { clear Hc. revert c. induction u as [| [us | eid] u IH]; intros c; [done | done |].
    cbn in Hu |- *. by apply IH. }
  rewrite Hfu. clear Hu Hfu.
  revert c. induction chs as [| [ch | ch | oid] chs IH]; intros c; [done | done | done |].
  cbn in Hc |- *. by apply IH.
Qed.

Lemma UpdatePeersToCache_skips_unknown_witness :
  (user_ids [User_UserEmpty 3] = [] ∧ chat_ids [Chat_Other 4; Chat_Other 5] = []) ∧
  UpdatePeersToCache samples.cache1 [User_UserEmpty 3] [Chat_Other 4; Chat_Other 5]
  = samples.cache1.
Proof.
  exact (conj (conj eq_refl eq_refl)
           (UpdatePeersToCache_skips_unknown samples.cache1 [User_UserEmpty 3]
              [Chat_Other 4; Chat_Other 5] eq_refl eq_refl)).
Defined.

End batch_facts.

(** ** [cache.go]: what the cache keeps true *)

Section invariant_facts.
Import telegram cache.

Lemma index_agrees_NewCache : index_agrees NewCache.
Proof. repeat split; intros k v Hk; cbn in Hk; by rewrite lookup_empty in Hk. Qed.

Lemma index_agrees_UpdateUser c u : index_agrees c → index_agrees (UpdateUser c u).
Proof.
  intros (Hu & Hch & Hc). split; [| split]; cbn; [| done | done].
  intros k v. rewrite !lookup_insert. case_decide; [by intros [= <-] | apply Hu].
Qed.

Lemma index_agrees_UpdateChannel c ch : index_agrees c → index_agrees (UpdateChannel c ch).
Proof.
  intros (Hu & Hch & Hc). split; [| split]; cbn; [done | | done].
  intros k v. rewrite !lookup_insert. case_decide; [by intros [= <-] | apply Hch].
Qed.

Lemma index_agrees_UpdateChat c ch : index_agrees c → index_agrees (UpdateChat c ch).
Proof.
  intros (Hu & Hch & Hc). split; [| split]; cbn; [done | done |].
  intros k v. rewrite !lookup_insert. case_decide; [by subst | apply Hc].
Qed.

Lemma index_agrees_UpdatePeersToCache c u chs :
  index_agrees c → index_agrees (UpdatePeersToCache c u chs).
Proof.
  intros Hc. rewrite UpdatePeersToCache_folds.
  assert (Hu : index_agrees (foldl add_user c u)).
  { revert c Hc. induction u as [| [us | ?] u IH]; intros c Hc; cbn;
      auto using index_agrees_UpdateUser. }
  revert Hu. generalize (foldl add_user c u).
  induction chs as [| [ch | ch | ?] chs IH]; intros c' Hc'; cbn;
    auto using index_agrees_UpdateChat, index_agrees_UpdateChannel.
Qed.

(** X20. Whatever batches a new cache is fed, every record stays filed under
    its own ID, and every record has its entry in the index of its kind with
    the access hash of the record (a chat with its own ID). *)
Theorem cache_stays_consistent (batches : list (list User * list Chat)) :
  records_by_id (foldl (λ c b, UpdatePeersToCache c b.1 b.2) NewCache batches) ∧
  index_agrees (foldl (λ c b, UpdatePeersToCache c b.1 b.2) NewCache batches).
Proof.
  cut (∀ c, records_by_id c → index_agrees c →
            records_by_id (foldl (λ c b, UpdatePeersToCache c b.1 b.2) c batches) ∧
            index_agrees (foldl (λ c b, UpdatePeersToCache c b.1 b.2) c batches)).
  { intros Hall. apply Hall; [apply records_by_id_NewCache | apply index_agrees_NewCache]. }
  induction batches as [| [u chs] batches IH]; intros c Hr Hi; [done |].
  cbn [foldl fst snd]. apply IH.
  - by apply records_by_id_UpdatePeersToCache.
  - by apply index_agrees_UpdatePeersToCache.
Qed.

End invariant_facts.

(** ** [cache.go]: import, and the journal file *)

Section journal_facts.
Import telegram cache.

Ltac decode_member :=
  cbn [foldl unmarshal_field InputChannels InputUsers InputChats];
  repeat match goal with
    | |- context [json.name_matches ?a ?b] =>
        let r := eval vm_compute in (json.name_matches a b) in
        change (json.name_matches a b) with r; cbv iota
    end;
  rewrite ?unmarshal_marshal_map by assumption.

(** The members [ExportJSON] writes, decoded into an index that is already
    there. *)
Lemma unmarshal_marshal_index (p p0 : InputPeerCache) (e : option error) :
  int64_index p →
  foldl unmarshal_field (p0, e)
    (json.omitempty "channels" (InputChannels p) ++
     json.omitempty "users" (InputUsers p) ++
     json.omitempty "chats" (InputChats p))%list
  = (mkInputPeerCache (InputChannels p ∪ InputChannels p0)
       (InputUsers p ∪ InputUsers p0) (InputChats p ∪ InputChats p0), e).
Proof.
  intros (Hch & Hus & Hcs). destruct p as [ch us cs], p0 as [ch0 us0 cs0].
  cbn [InputChannels InputUsers InputChats] in *. unfold json.omitempty.
  repeat case_bool_decide; subst; cbn [app]; repeat decode_member;
    by rewrite ?(left_id_L ∅ (∪)).
Qed.

(** X21. [ImportJSON] does not replace the index, it adds to it: after
    importing what another cache exported, each index map holds the imported
    entries and, for the IDs the import does not mention, the entries that
    were there. *)
Theorem ImportJSON_merges (c c0 : CACHE) :
  int64_index (InputPeers c) →
  ∃ data, ExportJSON c = Ok data ∧
          ImportJSON c0 data
          = (mkCACHE (chats c0) (users c0) (channels c0)
               (mkInputPeerCache
                  (InputChannels (InputPeers c) ∪ InputChannels (InputPeers c0))
                  (InputUsers (InputPeers c) ∪ InputUsers (InputPeers c0))
                  (InputChats (InputPeers c) ∪ InputChats (InputPeers c0))),
             None).
Proof.
  intros Hc. eexists. split; [reflexivity |].
  unfold ImportJSON, unmarshal_InputPeerCache, marshal_InputPeerCache.
  by rewrite (unmarshal_marshal_index _ _ None Hc).
Qed.

Lemma ImportJSON_merges_witness :
  int64_index (InputPeers samples.cache1) ∧
  ∃ data, ExportJSON samples.cache1 = Ok data ∧
          ImportJSON samples_more.handles_only data
          = (mkCACHE ∅ ∅ ∅
               (mkInputPeerCache
                  (InputChannels (InputPeers samples.cache1) ∪ {[5 := 8]})
                  (InputUsers (InputPeers samples.cache1) ∪ {[5 := 9]})
                  (InputChats (InputPeers samples.cache1) ∪ ∅)),
             None).
Proof.
  exact (conj cache1_int64
           (ImportJSON_merges samples.cache1 samples_more.handles_only cache1_int64)).
Defined.

(** X22. The journal round trip.  A flush that meets no fault writes the index,
    logs nothing and sets the timer again; loading that file adds the written
    index to the one in memory, so a cache with an empty index gets exactly
    the index that was written. *)
Theorem journal_round_trip (c c0 : CACHE) (journal : option File) :
  int64_index (InputPeers c) →
  ∃ file,
    flushToFile c journal no_flush_faults = (Some file, [], true) ∧
    loadFromFile c0 (Some file) no_load_faults
    = (Some (mkInputPeerCache
               (InputChannels (InputPeers c) ∪ InputChannels (InputPeers c0))
               (InputUsers (InputPeers c) ∪ InputUsers (InputPeers c0))
               (InputChats (InputPeers c) ∪ InputChats (InputPeers c0))), []) ∧
    loadFromFile NewCache (Some file) no_load_faults = (Some (InputPeers c), []).
Proof.
  intros Hc. eexists. split; [reflexivity |].
  assert (Hload : ∀ c1,
    loadFromFile c1 (Some (Text (Ok (marshal_CACHE c)))) no_load_faults
    = (Some (mkInputPeerCache
               (InputChannels (InputPeers c) ∪ InputChannels (InputPeers c1))
               (InputUsers (InputPeers c) ∪ InputUsers (InputPeers c1))
               (InputChats (InputPeers c) ∪ InputChats (InputPeers c1))), [])).
  { intros c1. unfold loadFromFile, no_load_faults, unmarshal_CACHE, marshal_CACHE.
    cbn [open_err stat_err read_err foldl unmarshal_CACHE_field].
    change (json.name_matches "input_peers" "input_peers") with true. cbv iota.
    unfold marshal_InputPeerCache.
    by rewrite (unmarshal_marshal_index _ _ None Hc). }
  split; [apply Hload |]. rewrite Hload. cbn.
  rewrite !(right_id_L ∅ (∪)). by destruct (InputPeers c).
Qed.

Lemma journal_round_trip_witness :
  int64_index (InputPeers samples.cache1) ∧
  ∃ file,
    flushToFile samples.cache1 None no_flush_faults = (Some file, [], true) ∧
    loadFromFile samples_more.handles_only (Some file) no_load_faults
    = (Some (mkInputPeerCache
               (InputChannels (InputPeers samples.cache1) ∪ {[5 := 8]})
               (InputUsers (InputPeers samples.cache1) ∪ {[5 := 9]})
               (InputChats (InputPeers samples.cache1) ∪ ∅)), []) ∧
    loadFromFile NewCache (Some file) no_load_faults
    = (Some (InputPeers samples.cache1), []).
Proof.
  exact (conj cache1_int64
           (journal_round_trip samples.cache1 samples_more.handles_only None cache1_int64)).
Defined.

(** X23. The index changes on load only when the file holds a JSON document and
    every step on the file works.  A missing file, and a file of length zero
    that can be opened, are passed over without a log line; a failing step or
    a text that is not JSON is logged once and leaves the index as it was. *)
Theorem loadFromFile_leaves_index (c : CACHE) (journal : option File) (faults : LoadFaults) :
  (journal = None → loadFromFile c journal faults = (Some (InputPeers c), [])) ∧
  (journal = Some ZeroLength → open_err faults = None → stat_err faults = None →
   loadFromFile c journal faults = (Some (InputPeers c), [])) ∧
  ((∀ doc, journal ≠ Some (Text (Ok doc))) ∨ faults ≠ no_load_faults →
   (loadFromFile c journal faults).1 = Some (InputPeers c)) ∧
  (∀ file, journal = Some file →
     faults ≠ no_load_faults ∧ file ≠ ZeroLength ∨ (∃ e, file = Text (Err e)) →
     length (loadFromFile c journal faults).2 = 1%nat).
Proof.
  destruct faults as [o s r]. unfold loadFromFile, no_load_faults.
  cbn [open_err stat_err read_err]. split; [by intros -> |].
  split; [by intros -> -> -> |]. split.
  - intros Hcase. destruct journal as [[| [doc | e]] |]; destruct o, s, r; cbn; try done.
    destruct Hcase as [Hdoc | Hf]; [by destruct (Hdoc doc) | done].
  - intros file -> Hcase. destruct file as [| [doc | e]]; destruct o, s, r; cbn; try done.
    all: destruct Hcase as [[Hf Hz] | [e' He]]; done.
Qed.

(** X24. A flush sets the timer again only when creating, writing and closing
    the file all worked; when one of them fails there is one log line and no
    further flush is scheduled.  A failure to create leaves the file alone;
    a failure to write has already emptied it, so that the index written by
    an earlier flush is gone and the next load gets nothing from the file. *)
Theorem flushToFile_faults (c c0 : CACHE) (journal : option File) (faults : FlushFaults) :
  ((flushToFile c journal faults).2 = true ↔ faults = no_flush_faults) ∧
  (faults ≠ no_flush_faults → length (flushToFile c journal faults).1.2 = 1%nat) ∧
  (is_Some (create_err faults) → (flushToFile c journal faults).1.1 = journal) ∧
  (create_err faults = None → is_Some (write_err faults) →
   (loadFromFile c0 (flushToFile c journal faults).1.1 no_load_faults).1
   = Some (InputPeers c0)).
Proof.
  destruct faults as [[ce |] [[we partly] |] [cl |]];
    unfold flushToFile, no_flush_faults; cbn [create_err write_err close_err fst snd];
    repeat split; try done; try (intros [? ?]; done); try (by intros []).
  all: by destruct partly.
Qed.

End journal_facts.

(** ** [utils.go]: chunks, part sizes, random IDs and MIME types *)

Section utils_facts.
Import utils.

Lemma wrap64_id (z : Z) : MinInt64 ≤ z ≤ MaxInt64 → wrap64 z = z.
Proof.
  unfold wrap64, MinInt64, MaxInt64. intros Hz.
  rewrite Z.mod_small by lia. lia.
Qed.

Lemma genByteChunks_from_spec (data : list Byte.byte) (cs : Z) :
  0 < cs ≤ MaxInt64 →
  2 * Z.of_nat (length data) ≤ MaxInt64 →
  ∀ (fuel : nat) (i : Z) (sent : list (list Byte.byte)),
    0 ≤ i → i = 0 ∨ cs ≤ i → i ≤ MaxInt64 →
    Z.max (Z.of_nat (length data) - i) 0 < Z.of_nat fuel →
    ∃ rest,
      genByteChunks_from fuel data cs i sent = Closed (sent ++ rest) ∧
      concat rest = drop (Z.to_nat i) data ∧
      Forall (λ c, 0 < Z.of_nat (length c) ≤ cs) rest ∧
      Z.of_nat (length rest) = (Z.max (Z.of_nat (length data) - i) 0 + cs - 1) / cs ∧
      (∀ k c, rest !! k = Some c → (S k < length rest)%nat → Z.of_nat (length c) = cs).
Proof.
  intros Hcs Hlen. induction fuel as [| fuel IH]; intros i sent Hi Hstep Himax Hfuel.
  { exfalso. unfold MaxInt64 in *. lia. }
  cbn [genByteChunks_from]. destruct (Z.ltb_spec i (Z.of_nat (length data))) as [Hlt | Hge].
  - assert (Hnext : wrap64 (i + cs) = i + cs).
    { apply wrap64_id. unfold MinInt64, MaxInt64 in *. lia. }
    rewrite Hnext.
    set (end_ := if i + cs >? Z.of_nat (length data)
                 then Z.of_nat (length data) else i + cs).
    assert (Hend : end_ = Z.min (i + cs) (Z.of_nat (length data))).
    { unfold end_. rewrite Z.gtb_ltb.
      destruct (Z.ltb_spec (Z.of_nat (length data)) (i + cs)); lia. }
    assert (Hok : (0 <=? i) && (i <=? end_) = true).
    { apply andb_true_intro. split; apply Z.leb_le; lia. }
    rewrite Hok.
    set (chunk := take (Z.to_nat (end_ - i)) (drop (Z.to_nat i) data)).
    assert (Hchunk : Z.of_nat (length chunk) = end_ - i).
    { unfold chunk. rewrite length_take, length_drop. lia. }
    destruct (IH (i + cs) (sent ++ [chunk])%list) as (rest & Hrun & Hcat & Hall & Hcount & Hfull);
      [lia | lia | unfold MaxInt64 in *; lia | lia |].
    exists (chunk :: rest). split; [by rewrite Hrun, <- app_assoc |].
    destruct (Z.le_gt_cases (i + cs) (Z.of_nat (length data))) as [Hfit | Hover].
    + assert (He : end_ - i = cs) by lia.
      split; [| split; [| split]].
      * cbn [concat]. rewrite Hcat. unfold chunk. rewrite He.
        replace (Z.to_nat (i + cs)) with (Z.to_nat i + Z.to_nat cs)%nat by lia.
        by rewrite <- drop_drop, take_drop.
      * apply Forall_cons. split; [lia | done].
      * cbn [length]. rewrite Nat2Z.inj_succ, Hcount.
        replace (Z.max (Z.of_nat (length data) - i) 0 + cs - 1)
          with (Z.max (Z.of_nat (length data) - (i + cs)) 0 + cs - 1 + 1 * cs) by lia.
        rewrite Z.div_add by lia. lia.
      * intros [| k] c Hk Hlast; cbn in Hk.
        -- injection Hk as <-. lia.
        -- apply (Hfull k c Hk). cbn [length] in Hlast. lia.
    + assert (Hnone : rest = []).
      { apply length_zero_iff_nil. apply Nat2Z.inj. rewrite Hcount.
        rewrite Z.max_r by lia. apply Z.div_small. lia. }
      subst rest. split; [| split; [| split]].
      * cbn [concat]. rewrite app_nil_r. unfold chunk. apply take_ge.
        rewrite length_drop. lia.
      * apply Forall_cons. split; [lia | done].
      * cbn [length]. rewrite Z.max_l by lia. change (Z.of_nat 1) with 1.
        apply (Z.div_unique _ _ 1 (Z.of_nat (length data) - i - 1)); lia.
      * intros k c _ Hlast. cbn [length] in Hlast. lia.
  - exists []. rewrite app_nil_r. split; [done |]. split.
    { cbn. symmetry. apply drop_ge. lia. }
    split; [constructor |]. split.
    + cbn [length]. rewrite Z.max_r by lia. symmetry. apply Z.div_small. lia.
    + intros k c Hk. by rewrite lookup_nil in Hk.
Qed.

(** X25. [genByteChunks] cuts the data into consecutive chunks and closes the
    channel.  For a positive chunk size the chunks sent, put end to end, are
    the data; none is empty or longer than the chunk size, every chunk
    before the last has exactly the chunk size, and their number is the
    length divided by the chunk size, rounded up. *)
Theorem genByteChunks_splits (data : list Byte.byte) (chunkSize : Z) (fuel : nat) :
  0 < chunkSize ≤ MaxInt64 →
  2 * Z.of_nat (length data) ≤ MaxInt64 →
  (length data < fuel)%nat →
  ∃ chunks,
    genByteChunks fuel data chunkSize = Closed chunks ∧
    concat chunks = data ∧
    Forall (λ c, 0 < Z.of_nat (length c) ≤ chunkSize) chunks ∧
    Z.of_nat (length chunks) = (Z.of_nat (length data) + chunkSize - 1) / chunkSize ∧
    (∀ k c, chunks !! k = Some c → (S k < length chunks)%nat →
            Z.of_nat (length c) = chunkSize).
Proof.
  intros Hcs Hlen Hfuel.
  destruct (genByteChunks_from_spec data chunkSize Hcs Hlen fuel 0 [])
    as (rest & Hrun & Hcat & Hall & Hcount & Hfull);
    [lia | by left | unfold MaxInt64; lia | lia |].
  exists rest. split; [exact Hrun |]. split; [exact Hcat |]. split; [exact Hall |].
  split; [| exact Hfull].
  rewrite Hcount. f_equal. lia.
Qed.

Lemma genByteChunks_splits_witness :
  (0 < 2 ≤ MaxInt64 ∧ (5 < 6)%nat) ∧
  ∃ chunks,
    genByteChunks 6 [Byte.x01; Byte.x02; Byte.x03; Byte.x04; Byte.x05] 2 = Closed chunks ∧
    concat chunks = [Byte.x01; Byte.x02; Byte.x03; Byte.x04; Byte.x05] ∧
    Z.of_nat (length chunks) = 3.
Proof.
  assert (H1 : 0 < 2 ≤ MaxInt64) by (unfold MaxInt64; lia).
  assert (H2 : 2 * Z.of_nat (length [Byte.x01; Byte.x02; Byte.x03; Byte.x04; Byte.x05])
               ≤ MaxInt64) by (unfold MaxInt64; cbn; lia).
  assert (H3 : (5 < 6)%nat) by lia.
  split; [exact (conj H1 H3) |].
  destruct (genByteChunks_splits [Byte.x01; Byte.x02; Byte.x03; Byte.x04; Byte.x05] 2 6
              H1 H2 H3) as (chunks & Hrun & Hcat & _ & Hcount & _).
  exists chunks. exact (conj Hrun (conj Hcat Hcount)).
Defined.

Lemma genByteChunks_zero_from (data : list Byte.byte) (fuel : nat) sent :
  data ≠ [] →
  genByteChunks_from fuel data 0 0 sent = Running (sent ++ replicate fuel []).
Proof.
  intros Hne. revert sent. induction fuel as [| fuel IH]; intros sent.
  - cbn. by rewrite app_nil_r.
  - cbn [genByteChunks_from].
    assert (Hlt : (0 <? Z.of_nat (length data)) = true).
    { apply Z.ltb_lt. destruct data; [done | cbn [length]; lia]. }
    rewrite Hlt. change (wrap64 (0 + 0)) with 0.
    assert (Hgt : (0 >? Z.of_nat (length data)) = false).
    { rewrite Z.gtb_ltb. apply Z.ltb_ge. lia. }
    rewrite Hgt. cbn [Z.leb Z.compare andb Z.sub Z.opp Z.add Z.to_nat take].
    rewrite IH. cbn [replicate]. by rewrite <- app_assoc.
Qed.

(** X26. A chunk size that is not positive.  On data that is not empty, a
    chunk size of 0 keeps the loop sending empty chunks and the channel is
    never closed; a negative chunk size makes the first slice panic, before
    anything is sent. *)
Theorem genByteChunks_bad_chunkSize (data : list Byte.byte) (chunkSize : Z) (fuel : nat) :
  data ≠ [] →
  MinInt64 ≤ chunkSize ≤ 0 →
  genByteChunks (S fuel) data chunkSize
  = if chunkSize =? 0 then Running (replicate (S fuel) []) else Panicked [].
Proof.
  intros Hne Hcs. unfold genByteChunks.
  destruct (Z.eqb_spec chunkSize 0) as [-> | Hneg].
  - by rewrite genByteChunks_zero_from.
  - cbn [genByteChunks_from].
    assert (Hlt : (0 <? Z.of_nat (length data)) = true).
    { apply Z.ltb_lt. destruct data; [done | cbn [length]; lia]. }
    rewrite Hlt, (wrap64_id (0 + chunkSize)) by (unfold MaxInt64; lia).
    assert (Hgt : (0 + chunkSize >? Z.of_nat (length data)) = false).
    { rewrite Z.gtb_ltb. apply Z.ltb_ge. lia. }
    rewrite Hgt.
    assert (Hbad : (0 <=? 0) && (0 <=? 0 + chunkSize) = false).
    { cbn [Z.leb Z.compare andb]. apply Z.leb_gt. lia. }
    by rewrite Hbad.
Qed.

Lemma genByteChunks_bad_chunkSize_witness :
  (MinInt64 ≤ 0 ≤ 0 ∧ MinInt64 ≤ -3 ≤ 0) ∧
  genByteChunks 4 [Byte.x01; Byte.x02] 0 = Running [[]; []; []; []] ∧
  genByteChunks 4 [Byte.x01; Byte.x02] (-3) = Panicked [].
Proof.
  assert (H0 : MinInt64 ≤ 0 ≤ 0) by (unfold MinInt64; lia).
  assert (H3 : MinInt64 ≤ -3 ≤ 0) by (unfold MinInt64; lia).
  assert (Hne : [Byte.x01; Byte.x02] ≠ []) by discriminate.
  exact (conj (conj H0 H3)
           (conj (genByteChunks_bad_chunkSize [Byte.x01; Byte.x02] 0 3 Hne H0)
                 (genByteChunks_bad_chunkSize [Byte.x01; Byte.x02] (-3) 3 Hne H3))).
Defined.

(** X27. The part size for an upload.  Below 2097152000 bytes it is
    positive, a multiple of 1024 and a divisor of 524288, and the file
    takes at most 8000 parts of that size. *)
Theorem part_size_bounds (fileSize : Z) :
  fileSize < 2097152000 →
  0 < getAppropriatedPartSize fileSize ∧
  getAppropriatedPartSize fileSize mod 1024 = 0 ∧
  524288 mod getAppropriatedPartSize fileSize = 0 ∧
  (fileSize + getAppropriatedPartSize fileSize - 1) / getAppropriatedPartSize fileSize
  ≤ 8000.
Proof.
  intros Hsize. unfold getAppropriatedPartSize.
  destruct (Z.ltb_spec fileSize 104857600);
    [| destruct (Z.ltb_spec fileSize 786432000);
       [| destruct (Z.ltb_spec fileSize 2097152000); [| lia]]];
    (split; [lia |]; split; [reflexivity |]; split; [reflexivity |];
     apply Z.lt_succ_r, Z.div_lt_upper_bound; lia).
Qed.

Lemma part_size_bounds_witness :
  5000000 < 2097152000 ∧
  getAppropriatedPartSize 5000000 = 131072 ∧
  (5000000 + getAppropriatedPartSize 5000000 - 1) / getAppropriatedPartSize 5000000 ≤ 8000.
Proof.
  assert (H : 5000000 < 2097152000) by lia.
  exact (conj H (conj eq_refl (proj2 (proj2 (proj2 (part_size_bounds 5000000 H)))))).
Defined.

Lemma testbit_above (b n k : Z) : 0 ≤ b < 2 ^ k → 0 ≤ k ≤ n → Z.testbit b n = false.
Proof.
  intros Hb Hk. destruct (Z.eq_dec b 0) as [-> | Hne]; [apply Z.bits_0 |].
  apply Z.bits_above_log2; [lia |].
  assert (Z.log2 b < k) by (apply Z.log2_lt_pow2; lia). lia.
Qed.

(** X28. [GenerateRandomLong] puts the first random number in the high half
    and the second in the low half.  Both can be read back from the result,
    which is never negative and never has bit 31 set. *)
Theorem GenerateRandomLong_halves (first second : Z) :
  0 ≤ first < 2 ^ 31 →
  0 ≤ second < 2 ^ 31 →
  GenerateRandomLong first second = first * 2 ^ 32 + second ∧
  GenerateRandomLong first second / 2 ^ 32 = first ∧
  GenerateRandomLong first second mod 2 ^ 32 = second ∧
  0 ≤ GenerateRandomLong first second ≤ MaxInt64 ∧
  Z.testbit (GenerateRandomLong first second) 31 = false.
Proof.
  intros Hf Hs. unfold GenerateRandomLong.
  assert (Hshift : wrap64 (Z.shiftl first 32) = Z.shiftl first 32).
  { apply wrap64_id. rewrite Z.shiftl_mul_pow2 by lia. unfold MinInt64, MaxInt64. lia. }
  rewrite Hshift.
  assert (Hland : Z.land (Z.shiftl first 32) second = 0).
  { apply Z.bits_inj'. intros n Hn. rewrite Z.land_spec, Z.bits_0.
    destruct (Z.lt_ge_cases n 32) as [Hlow | Hhigh].
    - by rewrite Z.shiftl_spec_low.
    - rewrite (testbit_above second n 31) by lia. apply andb_false_r. }
  assert (Hsum : Z.lor (Z.shiftl first 32) second = first * 2 ^ 32 + second).
  { rewrite <- Z.lxor_lor, <- Z.add_nocarry_lxor by exact Hland.
    by rewrite Z.shiftl_mul_pow2 by lia. }
  split; [exact Hsum |]. split; [| split; [| split]].
  - rewrite Hsum. symmetry. apply (Z.div_unique _ _ first second); lia.
  - rewrite Hsum. symmetry. apply (Z.mod_unique _ _ first second); lia.
  - rewrite Hsum. unfold MaxInt64. lia.
  - rewrite Z.lor_spec, (testbit_above second 31 31) by lia.
    by rewrite Z.shiftl_spec_low.
Qed.

Lemma GenerateRandomLong_halves_witness :
  (0 ≤ 1 < 2 ^ 31 ∧ 0 ≤ 2147483647 < 2 ^ 31) ∧
  GenerateRandomLong 1 2147483647 = 6442450943 ∧
  Z.testbit (GenerateRandomLong 1 2147483647) 31 = false.
Proof.
  assert (H1 : 0 ≤ 1 < 2 ^ 31) by lia.
  assert (H2 : 0 ≤ 2147483647 < 2 ^ 31) by lia.
  destruct (GenerateRandomLong_halves 1 2147483647 H1 H2) as (Hsum & _ & _ & _ & Hbit).
  exact (conj (conj H1 H2) (conj Hsum Hbit)).
Defined.

Lemma String_length_app (a b : string) :
  String.length (a +:+ b) = (String.length a + String.length b)%nat.
Proof.
  induction a as [| c a IH]; [done |].
  change (S (String.length (a +:+ b)) = S (String.length a + String.length b)).
  by rewrite IH.
Qed.

Lemma substring_skip (p s : string) (m : nat) :
  substring (String.length p) m (p +:+ s) = substring 0 m s.
Proof. induction p as [| c p IH]; [done |]. exact IH. Qed.

Lemma substring_all (s : string) : substring 0 (String.length s) s = s.
Proof. induction s as [| c s IH]; [done |]. cbn. f_equal. exact IH. Qed.

Lemma HasSuffix_app (p suffix : string) : HasSuffix (p +:+ suffix) suffix = true.
Proof.
  unfold HasSuffix. rewrite String_length_app. apply andb_true_intro. split.
  - apply Nat.leb_le. lia.
  - replace (String.length p + String.length suffix - String.length suffix)%nat
      with (String.length p) by lia.
    rewrite substring_skip, substring_all. apply String.eqb_refl.
Qed.

Lemma string_split_at (n : nat) (s : string) :
  (n ≤ String.length s)%nat → ∃ p r, s = p +:+ r ∧ String.length p = n.
Proof.
  revert s. induction n as [| n IH]; intros s Hn.
  - by exists "", s.
  - destruct s as [| c s]; [cbn in Hn; lia |].
    destruct (IH s) as (p & r & -> & Hp); [cbn in Hn; lia |].
    exists (String c p), r. split; [done |]. cbn. by rewrite Hp.
Qed.

Lemma HasSuffix_split (s suffix : string) :
  HasSuffix s suffix = true → ∃ p, s = p +:+ suffix.
Proof.
  unfold HasSuffix. intros [Hle Heq]%andb_prop.
  apply Nat.leb_le in Hle. apply String.eqb_eq in Heq.
  destruct (string_split_at (String.length s - String.length suffix) s)
    as (p & r & -> & Hp); [lia |].
  exists p. f_equal. rewrite <- Hp, substring_skip in Heq.
  rewrite String_length_app in Hp, Hle.
  replace (String.length suffix) with (String.length r) in Heq by lia.
  by rewrite substring_all in Heq.
Qed.

Lemma suffixes_comparable (p q a b : string) :
  p +:+ a = q +:+ b → HasSuffix a b = true ∨ HasSuffix b a = true.
Proof.
  revert q. induction p as [| c p IH]; intros q Heq.
  - left. change ("" +:+ a) with a in Heq. rewrite Heq. apply HasSuffix_app.
  - destruct q as [| c' q].
    + right. change ("" +:+ b) with b in Heq. rewrite <- Heq.
      apply (HasSuffix_app (String c p)).
    + change (String c (p +:+ a) = String c' (q +:+ b)) in Heq.
      injection Heq as _ Heq. by apply (IH q).
Qed.

Lemma matchMimeType_in_found (table : list Mime) (filePath : string) :
  (matchMimeType_in table filePath = ""
   ∧ ∀ mt, mt ∈ table → HasSuffix filePath (Extension mt) = false)
  ∨ (∃ mt, mt ∈ table ∧ HasSuffix filePath (Extension mt) = true
           ∧ matchMimeType_in table filePath = Mime_ mt).
Proof.
  induction table as [| mt table IH].
  - left. split; [done |]. intros mt Hin. by apply elem_of_nil in Hin.
  - cbn [matchMimeType_in]. destruct (HasSuffix filePath (Extension mt)) eqn:Hmt.
    + right. exists mt. split; [by left | done].
    + destruct IH as [[Hnone Hall] | (mt' & Hin & Hs & Hr)].
      * left. split; [done |]. intros mt' [-> | Hin]%elem_of_cons; [done | by apply Hall].
      * right. exists mt'. split; [by right | done].
Qed.

Lemma MimeTypes_coherent (a b : Mime) :
  a ∈ MimeTypes → b ∈ MimeTypes →
  HasSuffix (Extension a) (Extension b) = true
  ∨ HasSuffix (Extension b) (Extension a) = true →
  Mime_ a = Mime_ b.
Proof.
  assert (Hall : forallb (λ a, forallb (λ b,
            implb (HasSuffix (Extension a) (Extension b)
                   || HasSuffix (Extension b) (Extension a))
                  (String.eqb (Mime_ a) (Mime_ b))) MimeTypes) MimeTypes = true)
    by (vm_compute; reflexivity).
  intros Ha%list_elem_of_In Hb%list_elem_of_In Hcmp.
  rewrite forallb_forall in Hall. specialize (Hall a Ha).
  rewrite forallb_forall in Hall. specialize (Hall b Hb).
  apply String.eqb_eq.
  destruct Hcmp as [Hcmp | Hcmp]; rewrite Hcmp in Hall;
    [| rewrite orb_true_r in Hall]; exact Hall.
Qed.

Lemma MimeTypes_named (mt : Mime) : mt ∈ MimeTypes → Mime_ mt ≠ "".
Proof.
  assert (Hall : forallb (λ a, negb (String.eqb (Mime_ a) "")) MimeTypes = true)
    by (vm_compute; reflexivity).
  intros Hin%list_elem_of_In Hempty.
  rewrite forallb_forall in Hall. specialize (Hall mt Hin).
  rewrite Hempty in Hall. discriminate.
Qed.

(** X29. A path that ends in an extension of the table gets the MIME type the
    table gives for that extension, whatever comes before the extension:
    no earlier row of the table takes the path away. *)
Theorem matchMimeType_by_extension (mt : Mime) (name : string) :
  mt ∈ MimeTypes →
  matchMimeType (name +:+ Extension mt) = Mime_ mt.
Proof.
  intros Hin. unfold matchMimeType.
  destruct (matchMimeType_in_found MimeTypes (name +:+ Extension mt))
    as [[_ Hall] | (mt' & Hin' & Hs & ->)].
  - specialize (Hall mt Hin). by rewrite HasSuffix_app in Hall.
  - destruct (HasSuffix_split _ _ Hs) as [q Hq].
    apply (MimeTypes_coherent mt' mt Hin' Hin).
    destruct (suffixes_comparable _ _ _ _ Hq); [by right | by left].
Qed.

Lemma matchMimeType_by_extension_witness :
  mkMime ".html" "text/html" ∈ MimeTypes ∧
  matchMimeType ("docs/index.old" +:+ ".html") = "text/html".
Proof.
  assert (Hin : mkMime ".html" "text/html" ∈ MimeTypes)
    by (apply (list_elem_of_lookup_2 _ 21%nat); reflexivity).
  exact (conj Hin (matchMimeType_by_extension (mkMime ".html" "text/html")
                     "docs/index.old" Hin)).
Defined.

(** X30. [matchMimeType] answers the empty string exactly for the paths
    that end in none of the extensions of the table, so the empty string
    is never the MIME type of a match. *)
Theorem matchMimeType_empty_iff (filePath : string) :
  matchMimeType filePath = ""
  ↔ ∀ mt, mt ∈ MimeTypes → HasSuffix filePath (Extension mt) = false.
Proof.
  unfold matchMimeType.
  destruct (matchMimeType_in_found MimeTypes filePath)
    as [[Hnone Hall] | (mt & Hin & Hs & Hr)].
  - by split.
  - split.
    + intros Hempty. rewrite Hr in Hempty. by destruct (MimeTypes_named mt Hin).
    + intros Hall. specialize (Hall mt Hin). congruence.
Qed.

End utils_facts.
